(** * The task list of the To-Do application (src/App.js)

    A shallow embedding of the state core of [App]: the task records, the
    handlers [addTask], [toggleTask] and [deleteTask] with the updaters they
    pass to [setTasks], the storage functions [loadTasks] and [saveTasks],
    and the two effects that call them.

    JavaScript strings are sequences of 16-bit code units; they are lists of
    [N] here, with the bound written out as [wf_string] where it matters.
    [String.prototype.trim], [Number.prototype.toString], [JSON.stringify]
    and [JSON.parse] are built-ins of the language; they are written after
    ECMA-262. *)

From Stdlib Require Import List NArith ZArith Bool Lia String Ascii.
From Stdlib Require Import DecimalString.
From Stdlib Require DecimalPos DecimalZ.
Import ListNotations.

#[local] Set Warnings "-register-all".

Local Open Scope N_scope.
Local Open Scope list_scope.

(** ** Strings *)

Module JsString.

Definition code_unit := N.
Definition jsstring := list code_unit.

Definition wf_unit (c : code_unit) : Prop := c < 65536.
Definition wf_string (s : jsstring) : Prop := Forall wf_unit s.

(** An ASCII literal as a JavaScript string. *)
Definition js (s : string) : jsstring :=
  map N_of_ascii (list_ascii_of_string s).

Fixpoint eqb (s t : jsstring) : bool :=
  match s, t with
  | [], [] => true
  | c :: s', d :: t' => (c =? d) && eqb s' t'
  | _, _ => false
  end.

(** WhiteSpace and LineTerminator of ECMA-262 (12.2, 12.3): the code units
    that [trim] strips. They all lie in the basic plane. *)
Definition is_trim_space (c : code_unit) : bool :=
  ((9 <=? c) && (c <=? 13))          (* TAB LF VT FF CR *)
  || (c =? 32)                       (* SP *)
  || (c =? 160)                      (* NBSP *)
  || (c =? 5760)                     (* U+1680 *)
  || ((8192 <=? c) && (c <=? 8202))  (* U+2000 .. U+200A *)
  || (c =? 8232) || (c =? 8233)      (* LS PS *)
  || (c =? 8239) || (c =? 8287)      (* U+202F U+205F *)
  || (c =? 12288)                    (* U+3000 *)
  || (c =? 65279).                   (* U+FEFF *)

Fixpoint trimStart (s : jsstring) : jsstring :=
  match s with
  | [] => []
  | c :: r => if is_trim_space c then trimStart r else s
  end.

Definition trimEnd (s : jsstring) : jsstring := rev (trimStart (rev s)).

Definition trim (s : jsstring) : jsstring := trimEnd (trimStart s).

(** [Number.prototype.toString] on an integral time value: the decimal
    digits, with a minus sign below zero. *)
Definition toString (n : Z) : jsstring :=
  js (NilZero.string_of_int (Z.to_int n)).

End JsString.
Export JsString.

(** ** Tasks *)

Record Task : Type := mkTask {
  id : jsstring;
  text : jsstring;
  isCompleted : bool
}.

Definition ids (l : list Task) : list jsstring := map id l.

(** ** The task store: [addTask], [toggleTask], [deleteTask] as functions
    of the list held by [tasks] *)

Module TaskStore.

(** [generateId]: [Date.now().toString()]. The clock value read by
    [Date.now()] is the argument. *)
Definition generateId (now : Z) : jsstring := toString now.

(** The object literal of [addTask]. *)
Definition newTask (taskText : jsstring) (now : Z) : Task :=
  {| id := generateId now; text := trim taskText; isCompleted := false |}.

(** [addTask]: the early [return] when the trimmed input is empty, the
    updater [prevTasks => [newTask, ...prevTasks]] otherwise. *)
Definition addTask (taskText : jsstring) (now : Z) (prevTasks : list Task)
  : list Task :=
  match trim taskText with
  | [] => prevTasks
  | _ :: _ => newTask taskText now :: prevTasks
  end.

(** [{ ...task, isCompleted: !task.isCompleted }] *)
Definition flip (task : Task) : Task :=
  {| id := id task; text := text task;
     isCompleted := negb (isCompleted task) |}.

(** The updater of [toggleTask]. *)
Definition toggleTask (k : jsstring) (prevTasks : list Task) : list Task :=
  map (fun task => if JsString.eqb (id task) k then flip task else task)
      prevTasks.

(** The updater of [deleteTask]. *)
Definition deleteTask (k : jsstring) (prevTasks : list Task) : list Task :=
  filter (fun task => negb (JsString.eqb (id task) k)) prevTasks.

(** The mutations of the list, and the lists they produce from the empty
    one. The text typed into the input field is a JavaScript string: its
    code units are 16-bit. *)
Inductive mutation : Type :=
| add (taskText : jsstring) (now : Z)
| toggle (k : jsstring)
| delete (k : jsstring).

Definition apply (m : mutation) (l : list Task) : list Task :=
  match m with
  | add s now => addTask s now l
  | toggle k => toggleTask k l
  | delete k => deleteTask k l
  end.

Definition wf_mutation (m : mutation) : Prop :=
  match m with
  | add s _ => wf_string s
  | _ => True
  end.

Inductive produced : list Task -> Prop :=
| produced_nil : produced []
| produced_step m l : wf_mutation m -> produced l -> produced (apply m l).

(** A task whose strings are JavaScript strings. *)
Definition wf_task (t : Task) : Prop :=
  wf_string (id t) /\ wf_string (text t).

(** How many tasks carry the id [k]. *)
Definition count_id (k : jsstring) (l : list Task) : nat :=
  List.length (filter (fun task => JsString.eqb (id task) k) l).

End TaskStore.

(** ** JSON *)

Module Json.

Inductive value : Type :=
| JNull
| JBool (b : bool)
| JNum (literal : jsstring)   (* a number, as the literal that denotes it *)
| JStr (s : jsstring)
| JArr (elements : list value)
| JObj (properties : list (jsstring * value)).

(** A task as the object it is, its keys in creation order: the literal of
    [addTask] creates [id], [text], [isCompleted] in this order and the
    spread of [toggleTask] keeps it. *)
Definition value_of_task (t : Task) : value :=
  JObj [ (js "id", JStr (id t));
         (js "text", JStr (text t));
         (js "isCompleted", JBool (isCompleted t)) ].

Definition value_of_tasks (l : list Task) : value :=
  JArr (map value_of_task l).

Definition task_of_value (v : value) : option Task :=
  match v with
  | JObj [ (k1, JStr i); (k2, JStr t); (k3, JBool b) ] =>
      if JsString.eqb k1 (js "id") && JsString.eqb k2 (js "text")
         && JsString.eqb k3 (js "isCompleted")
      then Some (mkTask i t b) else None
  | _ => None
  end.

Fixpoint all_tasks (vs : list value) : option (list Task) :=
  match vs with
  | [] => Some []
  | v :: vs' =>
      match task_of_value v, all_tasks vs' with
      | Some t, Some l => Some (t :: l)
      | _, _ => None
      end
  end.

(** The task list a value is, when it is an array of task objects. *)
Definition tasks_of_value (v : value) : option (list Task) :=
  match v with
  | JArr vs => all_tasks vs
  | _ => None
  end.

(** *** JSON.stringify on a task list (ECMA-262, 25.5.2) *)

Definition hex_digit (d : N) : code_unit :=
  if d <? 10 then 48 + d else 87 + d.

(** UnicodeEscape: [\uXXXX] with lower-case digits. *)
Definition UnicodeEscape (c : code_unit) : jsstring :=
  [ 92; 117; hex_digit (c / 4096); hex_digit ((c / 256) mod 16);
    hex_digit ((c / 16) mod 16); hex_digit (c mod 16) ].

Definition is_high_surrogate (c : code_unit) : bool :=
  (55296 <=? c) && (c <=? 56319).
Definition is_low_surrogate (c : code_unit) : bool :=
  (56320 <=? c) && (c <=? 57343).

(** The text of one code point that is a single code unit (a lone surrogate
    included): the two-character escapes of Table 75, [\uXXXX] for the other
    control characters and for lone surrogates, the unit itself otherwise. *)
Definition quote_unit (c : code_unit) : jsstring :=
  if c =? 8 then [92; 98]            (* \b *)
  else if c =? 9 then [92; 116]      (* \t *)
  else if c =? 10 then [92; 110]     (* \n *)
  else if c =? 12 then [92; 102]     (* \f *)
  else if c =? 13 then [92; 114]     (* \r *)
  else if c =? 34 then [92; 34]      (* \ and the double quote *)
  else if c =? 92 then [92; 92]      (* \\ *)
  else if (c <? 32) || is_high_surrogate c || is_low_surrogate c
       then UnicodeEscape c
  else [c].

(** The code points of the string in turn: a high surrogate followed by a
    low one is one code point and is copied. *)
Fixpoint quote_units (s : jsstring) : jsstring :=
  match s with
  | [] => []
  | c :: r =>
      if is_high_surrogate c then
        match r with
        | d :: r' =>
            if is_low_surrogate d then c :: d :: quote_units r'
            else quote_unit c ++ quote_units r
        | [] => quote_unit c
        end
      else quote_unit c ++ quote_units r
  end.

Definition QuoteJSONString (s : jsstring) : jsstring :=
  34 :: quote_units s ++ [34].

Definition stringify_bool (b : bool) : jsstring :=
  if b then js "true" else js "false".

(** SerializeJSONObject on a task, no gap. *)
Definition stringify_task (t : Task) : jsstring :=
  js "{" ++ QuoteJSONString (js "id") ++ js ":" ++ QuoteJSONString (id t)
  ++ js "," ++ QuoteJSONString (js "text") ++ js ":"
  ++ QuoteJSONString (text t)
  ++ js "," ++ QuoteJSONString (js "isCompleted") ++ js ":"
  ++ stringify_bool (isCompleted t) ++ js "}".

Fixpoint join_tasks (l : list Task) : jsstring :=
  match l with
  | [] => []
  | [t] => stringify_task t
  | t :: l' => stringify_task t ++ js "," ++ join_tasks l'
  end.

(** SerializeJSONArray on a task list, no gap. *)
Definition stringify_tasks (l : list Task) : jsstring :=
  js "[" ++ join_tasks l ++ js "]".

(** *** JSON.parse (ECMA-262, 25.5.1, and the grammar of ECMA-404) *)

Definition is_json_ws (c : code_unit) : bool :=
  (c =? 9) || (c =? 10) || (c =? 13) || (c =? 32).

Fixpoint skip_ws (s : jsstring) : jsstring :=
  match s with
  | [] => []
  | c :: r => if is_json_ws c then skip_ws r else s
  end.

Fixpoint strip_prefix (p s : jsstring) : option jsstring :=
  match p, s with
  | [], _ => Some s
  | a :: p', b :: s' => if a =? b then strip_prefix p' s' else None
  | _ :: _, [] => None
  end.

Definition is_digit (c : code_unit) : bool := (48 <=? c) && (c <=? 57).

Definition hex_value (c : code_unit) : option N :=
  if is_digit c then Some (c - 48)
  else if (97 <=? c) && (c <=? 102) then Some (c - 87)
  else if (65 <=? c) && (c <=? 70) then Some (c - 55)
  else None.

Definition hex4 (h1 h2 h3 h4 : code_unit) : option code_unit :=
  match hex_value h1, hex_value h2, hex_value h3, hex_value h4 with
  | Some a, Some b, Some c, Some d => Some (4096 * a + 256 * b + 16 * c + d)
  | _, _, _, _ => None
  end.

(** The character a two-character escape stands for. *)
Definition escape_char (e : code_unit) : option code_unit :=
  if e =? 34 then Some 34
  else if e =? 92 then Some 92
  else if e =? 47 then Some 47        (* \/ *)
  else if e =? 98 then Some 8
  else if e =? 102 then Some 12
  else if e =? 110 then Some 10
  else if e =? 114 then Some 13
  else if e =? 116 then Some 9
  else None.

Definition cons_unit (c : code_unit) (r : option (jsstring * jsstring))
  : option (jsstring * jsstring) :=
  match r with
  | Some (str, rest) => Some (c :: str, rest)
  | None => None
  end.

(** The characters of a string literal after its opening quote: the string
    they denote and what follows the closing quote. *)
Fixpoint parse_chars (s : jsstring) : option (jsstring * jsstring) :=
  match s with
  | [] => None
  | c :: r =>
      if c =? 34 then Some ([], r)
      else if c =? 92 then
        match r with
        | [] => None
        | e :: r1 =>
            if e =? 117 then
              match r1 with
              | h1 :: h2 :: h3 :: h4 :: r2 =>
                  match hex4 h1 h2 h3 h4 with
                  | Some u => cons_unit u (parse_chars r2)
                  | None => None
                  end
              | _ => None
              end
            else
              match escape_char e with
              | Some u => cons_unit u (parse_chars r1)
              | None => None
              end
        end
      else if c <? 32 then None
      else cons_unit c (parse_chars r)
  end.

Fixpoint take_digits (s : jsstring) : jsstring * jsstring :=
  match s with
  | [] => ([], [])
  | c :: r =>
      if is_digit c then let (ds, rest) := take_digits r in (c :: ds, rest)
      else ([], s)
  end.

(** One or more digits. *)
Definition digits1 (s : jsstring) : option (jsstring * jsstring) :=
  match take_digits s with
  | ([], _) => None
  | (ds, rest) => Some (ds, rest)
  end.

Definition parse_int_part (s : jsstring) : option (jsstring * jsstring) :=
  match s with
  | [] => None
  | c :: r =>
      if c =? 48 then Some ([48], r)
      else if is_digit c then
        let (ds, rest) := take_digits r in Some (c :: ds, rest)
      else None
  end.

Definition parse_fraction (s : jsstring) : option (jsstring * jsstring) :=
  match s with
  | c :: r =>
      if c =? 46 then
        match digits1 r with
        | Some (ds, rest) => Some (46 :: ds, rest)
        | None => None
        end
      else Some ([], s)
  | [] => Some ([], s)
  end.

Definition parse_exponent (s : jsstring) : option (jsstring * jsstring) :=
  match s with
  | c :: r =>
      if (c =? 101) || (c =? 69) then
        let (sign, r1) :=
          match r with
          | d :: r' => if (d =? 43) || (d =? 45) then ([d], r') else ([], r)
          | [] => ([], r)
          end in
        match digits1 r1 with
        | Some (ds, rest) => Some (c :: sign ++ ds, rest)
        | None => None
        end
      else Some ([], s)
  | [] => Some ([], s)
  end.

(** A number literal: its text and what follows it. *)
Definition parse_number (s : jsstring) : option (jsstring * jsstring) :=
  let (sign, s1) :=
    match s with
    | c :: r => if c =? 45 then ([45], r) else ([], s)
    | [] => ([], s)
    end in
  match parse_int_part s1 with
  | None => None
  | Some (i, s2) =>
      match parse_fraction s2 with
      | None => None
      | Some (f, s3) =>
          match parse_exponent s3 with
          | None => None
          | Some (e, s4) => Some (sign ++ i ++ f ++ e, s4)
          end
      end
  end.

Fixpoint digits_value (acc : N) (s : jsstring) : N :=
  match s with
  | [] => acc
  | c :: r => digits_value (10 * acc + (c - 48)) r
  end.

(** The integer a key denotes when it is an array index: a canonical
    numeric string below 2^32 - 1. *)
Definition array_index (k : jsstring) : option N :=
  match k with
  | [] => None
  | c :: r =>
      if forallb is_digit k && negb ((c =? 48) && negb (List.length r =? 0)%nat)
         && (digits_value 0 k <? 4294967295)
      then Some (digits_value 0 k) else None
  end.

Fixpoint replace_property (k : jsstring) (v : value)
  (props : list (jsstring * value)) : option (list (jsstring * value)) :=
  match props with
  | [] => None
  | (k', v') :: ps =>
      if JsString.eqb k' k then Some ((k', v) :: ps)
      else match replace_property k v ps with
           | Some ps' => Some ((k', v') :: ps')
           | None => None
           end
  end.

Fixpoint insert_index (n : N) (k : jsstring) (v : value)
  (props : list (jsstring * value)) : list (jsstring * value) :=
  match props with
  | [] => [(k, v)]
  | (k', v') :: ps =>
      match array_index k' with
      | Some m => if m <? n then (k', v') :: insert_index n k v ps
                  else (k, v) :: props
      | None => (k, v) :: props
      end
  end.

(** CreateDataProperty on the object being built, its properties kept in
    the order in which they are enumerated: an existing key keeps its
    place and takes the new value, a new array index goes among the
    indices in ascending order, any other new key goes last. *)
Definition define_property (props : list (jsstring * value))
  (kv : jsstring * value) : list (jsstring * value) :=
  let (k, v) := kv in
  match replace_property k v props with
  | Some props' => props'
  | None =>
      match array_index k with
      | Some n => insert_index n k v props
      | None => props ++ [(k, v)]
      end
  end.

Definition object_of_members (ms : list (jsstring * value)) : value :=
  JObj (fold_left define_property ms []).

(** Recursive descent. The three parsers call each other; each is written
    over the parsers it calls, and the knot is tied below. *)

(** A value, after optional white space. *)
Definition value_step
  (elements : jsstring -> option (list value * jsstring))
  (members : jsstring -> option (list (jsstring * value) * jsstring))
  (s : jsstring) : option (value * jsstring) :=
  match skip_ws s with
  | [] => None
  | c :: r =>
      if c =? 34 then
        match parse_chars r with
        | Some (str, rest) => Some (JStr str, rest)
        | None => None
        end
      else if c =? 91 then            (* [ *)
        match skip_ws r with
        | d :: r' =>
            if d =? 93 then Some (JArr [], r')
            else match elements r with
                 | Some (vs, rest) => Some (JArr vs, rest)
                 | None => None
                 end
        | [] => None
        end
      else if c =? 123 then           (* { *)
        match skip_ws r with
        | d :: r' =>
            if d =? 125 then Some (JObj [], r')
            else match members r with
                 | Some (ms, rest) => Some (object_of_members ms, rest)
                 | None => None
                 end
        | [] => None
        end
      else if c =? 116 then
        match strip_prefix (js "true") (c :: r) with
        | Some rest => Some (JBool true, rest)
        | None => None
        end
      else if c =? 102 then
        match strip_prefix (js "false") (c :: r) with
        | Some rest => Some (JBool false, rest)
        | None => None
        end
      else if c =? 110 then
        match strip_prefix (js "null") (c :: r) with
        | Some rest => Some (JNull, rest)
        | None => None
        end
      else
        match parse_number (c :: r) with
        | Some (lit, rest) => Some (JNum lit, rest)
        | None => None
        end
  end.

(** The elements of an array after its bracket, up to the closing one. *)
Definition elements_step
  (pvalue : jsstring -> option (value * jsstring))
  (elements : jsstring -> option (list value * jsstring))
  (s : jsstring) : option (list value * jsstring) :=
  match pvalue s with
  | None => None
  | Some (v, r) =>
      match skip_ws r with
      | [] => None
      | c :: r' =>
          if c =? 44 then
            match elements r' with
            | Some (vs, rest) => Some (v :: vs, rest)
            | None => None
            end
          else if c =? 93 then Some ([v], r')
          else None
      end
  end.

(** The members of an object after its brace, up to the closing one. *)
Definition members_step
  (pvalue : jsstring -> option (value * jsstring))
  (members : jsstring -> option (list (jsstring * value) * jsstring))
  (s : jsstring) : option (list (jsstring * value) * jsstring) :=
  match skip_ws s with
  | [] => None
  | q :: r0 =>
      if q =? 34 then
        match parse_chars r0 with
        | None => None
        | Some (k, r1) =>
            match skip_ws r1 with
            | [] => None
            | colon :: r2 =>
                if colon =? 58 then
                  match pvalue r2 with
                  | None => None
                  | Some (v, r3) =>
                      match skip_ws r3 with
                      | [] => None
                      | c :: r4 =>
                          if c =? 44 then
                            match members r4 with
                            | Some (ms, rest) => Some ((k, v) :: ms, rest)
                            | None => None
                            end
                          else if c =? 125 then Some ([(k, v)], r4)
                          else None
                      end
                  end
                else None
            end
        end
      else None
  end.

(** A parser that takes what it reads from its input. *)
Definition consuming {A : Type} (p : jsstring -> option (A * jsstring))
  : Prop :=
  forall s a rest, p s = Some (a, rest) ->
                   (List.length rest < List.length s)%nat.

(** Fuel bounds the nesting and the number of elements. *)
Fixpoint parse_value (fuel : nat) (s : jsstring)
  : option (value * jsstring) :=
  match fuel with
  | O => None
  | S fuel' => value_step (parse_elements fuel') (parse_members fuel') s
  end

with parse_elements (fuel : nat) (s : jsstring)
  : option (list value * jsstring) :=
  match fuel with
  | O => None
  | S fuel' => elements_step (parse_value fuel') (parse_elements fuel') s
  end

with parse_members (fuel : nat) (s : jsstring)
  : option (list (jsstring * value) * jsstring) :=
  match fuel with
  | O => None
  | S fuel' => members_step (parse_value fuel') (parse_members fuel') s
  end.

(** [JSON.parse]: a value, then nothing but white space. [None] is the
    [SyntaxError]. *)
Definition JSON_parse (s : jsstring) : option value :=
  match parse_value (2 * List.length s + 1) s with
  | Some (v, rest) =>
      match skip_ws rest with
      | [] => Some v
      | _ :: _ => None
      end
  | None => None
  end.

(** *** Numbers *)

(** The parts of a number literal: whether it has a minus sign, its digits
    as one integer [m] and the power of ten [e] that goes with them: the
    literal denotes [m * 10^e], negated under the sign. *)
Definition exponent_value (s : jsstring) : Z :=
  match s with
  | [] => 0%Z
  | _ :: r =>                         (* e or E *)
      match r with
      | d :: r' =>
          if d =? 45 then Z.opp (Z.of_N (digits_value 0 r'))
          else if d =? 43 then Z.of_N (digits_value 0 r')
          else Z.of_N (digits_value 0 r)
      | [] => 0%Z
      end
  end.

Definition decode_literal (lit : jsstring) : bool * N * Z :=
  let (neg, s1) :=
    match lit with
    | c :: r => if c =? 45 then (true, r) else (false, lit)
    | [] => (false, lit)
    end in
  let (int, s2) := take_digits s1 in
  let (frac, s3) :=
    match s2 with
    | c :: r => if c =? 46 then take_digits r else ([], s2)
    | [] => ([], s2)
    end in
  (neg, digits_value 0 (int ++ frac),
   (exponent_value s3 - Z.of_nat (List.length frac))%Z).

(** A double that is not negative: zero, [q * 2^p] with [q] below 2^53
    (and at least 2^52 unless [p] is -1074), or infinity. *)
Inductive double : Type :=
| dzero
| dfinite (q : N) (p : Z)
| dinfinity.

Definition pow2 (p : Z) : N := N.shiftl 1 (Z.to_N p).
Definition pow10 (e : Z) : N := 10 ^ Z.to_N e.

(** [num / den] rounded to the nearest multiple of [2^p], ties to even. *)
Definition round_at (num den : N) (p : Z) : N :=
  let n := if (0 <=? p)%Z then num else num * pow2 (- p) in
  let d := if (0 <=? p)%Z then den * pow2 p else den in
  let q := n / d in
  let r := n mod d in
  if (d <? 2 * r) || ((d =? 2 * r) && N.odd q) then q + 1 else q.

(** The double nearest to [num / den], ties to even ([num] and [den] not
    zero). *)
Definition nearest_double (num den : N) : double :=
  let b := (Z.of_N (N.log2 num) - Z.of_N (N.log2 den))%Z in
  let p0 := (b - 53)%Z in
  let q0 := (if (0 <=? p0)%Z then num else num * pow2 (- p0))
            / (if (0 <=? p0)%Z then den * pow2 p0 else den) in
  let p1 := if 9007199254740992 <=? q0 then (p0 + 1)%Z else p0 in
  let p := Z.max p1 (-1074) in
  let q := round_at num den p in
  let (q', p') := if q =? 9007199254740992 then (4503599627370496, (p + 1)%Z)
                  else (q, p) in
  if q' =? 0 then dzero
  else if (971 <? p')%Z then dinfinity
  else dfinite q' p'.

(** The double nearest to [m * 10^e]. *)
Definition round_to_double (m : N) (e : Z) : double :=
  if m =? 0 then dzero
  else if (309 <? e)%Z then dinfinity
  else if (e + Z.of_N (N.log2 m) <? -1100)%Z then dzero
  else if (0 <=? e)%Z then nearest_double (m * pow10 e) 1
  else nearest_double m (pow10 (- e)).

(** *** Number::toString (ECMA-262, 6.1.6.1.20) on a positive double *)

(** [q * 2^p < 10^n] *)
Definition below_pow10 (q : N) (p n : Z) : bool :=
  (q * (if (0 <=? p)%Z then pow2 p else 1)
     * (if (0 <=? n)%Z then 1 else pow10 (- n))
   <? (if (0 <=? p)%Z then 1 else pow2 (- p))
      * (if (0 <=? n)%Z then pow10 n else 1)).

Fixpoint exponent_down (fuel : nat) (q : N) (p n : Z) : Z :=
  match fuel with
  | O => n
  | S fuel' =>
      if below_pow10 q p (n - 1) then exponent_down fuel' q p (n - 1)%Z
      else n
  end.

Fixpoint exponent_up (fuel : nat) (q : N) (p n : Z) : Z :=
  match fuel with
  | O => n
  | S fuel' =>
      if below_pow10 q p n then n else exponent_up fuel' q p (n + 1)%Z
  end.

(** The [n] with [10^(n-1) <= q * 2^p < 10^n]. *)
Definition decimal_exponent (q : N) (p : Z) : Z :=
  let b := (Z.of_N (N.log2 q) + p)%Z in
  let est := (b * 30103 / 100000)%Z in
  exponent_up 4 q p (exponent_down 4 q p est).

(** The largest [s] with [s * 10^t <= q * 2^p]. *)
Definition scaled_floor (q : N) (p t : Z) : N :=
  (q * (if (0 <=? p)%Z then pow2 p else 1)
     * (if (0 <=? t)%Z then 1 else pow10 (- t)))
  / ((if (0 <=? p)%Z then 1 else pow2 (- p))
     * (if (0 <=? t)%Z then pow10 t else 1)).

(** How [q * 2^p] compares with [(s + 1/2) * 10^t]. *)
Definition compare_half (q : N) (p : Z) (s : N) (t : Z) : comparison :=
  (2 * q * (if (0 <=? p)%Z then pow2 p else 1)
     * (if (0 <=? t)%Z then 1 else pow10 (- t))
   ?= (2 * s + 1)
      * (if (0 <=? p)%Z then 1 else pow2 (- p))
      * (if (0 <=? t)%Z then pow10 t else 1)).

Definition same_double (d : double) (q : N) (p : Z) : bool :=
  match d with
  | dfinite q' p' => (q' =? q) && (p' =? p)%Z
  | _ => false
  end.

(** With [k] digits: the [s] nearest to the double among those for which
    [s * 10^(n-k)] rounds to it, if any. *)
Definition digits_at (q : N) (p n : Z) (k : nat) : option N :=
  let t := (n - Z.of_nat k)%Z in
  let lo := scaled_floor q p t in
  let hi := lo + 1 in
  let lo_ok := same_double (round_to_double lo t) q p in
  let hi_ok := same_double (round_to_double hi t) q p in
  if lo_ok && hi_ok then
    match compare_half q p lo t with
    | Lt => Some lo
    | Gt => Some hi
    | Eq => if N.even lo then Some lo else Some hi
    end
  else if lo_ok then Some lo
  else if hi_ok then Some hi
  else None.

Fixpoint shortest (fuel : nat) (q : N) (p n : Z) (k : nat) : N * nat :=
  match fuel with
  | O => (scaled_floor q p (n - Z.of_nat k), k)
  | S fuel' =>
      match digits_at q p n k with
      | Some s => (s, k)
      | None => shortest fuel' q p n (S k)
      end
  end.

Definition digits_of (s : N) : jsstring :=
  js (NilZero.string_of_uint (N.to_uint s)).

Definition zeros (n : Z) : jsstring := repeat 48 (Z.to_nat n).

(** The text of [s * 10^(n-k)], [s] having [k] digits. *)
Definition format_number (s : N) (k : nat) (n : Z) : jsstring :=
  let ds := digits_of s in
  let kz := Z.of_nat k in
  if (kz <=? n)%Z && (n <=? 21)%Z then ds ++ zeros (n - kz)
  else if (0 <? n)%Z && (n <=? 21)%Z then
    firstn (Z.to_nat n) ds ++ [46] ++ skipn (Z.to_nat n) ds
  else if (-6 <? n)%Z && (n <=? 0)%Z then
    [48; 46] ++ zeros (- n) ++ ds
  else
    let e := (n - 1)%Z in
    let sign := if (e <? 0)%Z then 45 else 43 in
    let mantissa :=
      match ds with
      | d :: (_ :: _) as rest => d :: 46 :: tl ds
      | _ => ds
      end in
    mantissa ++ [101; sign] ++ digits_of (Z.to_N (Z.abs e)).

Definition Number_toString (q : N) (p : Z) : jsstring :=
  let n := decimal_exponent q p in
  let (s, k) := shortest 17 q p n 1 in
  if s =? 10 ^ N.of_nat k then format_number 1 1 (n + 1)
  else format_number s k n.

(** The text [JSON.stringify] writes for the number a literal denotes:
    [null] when it is not finite. *)
Definition stringify_number (lit : jsstring) : jsstring :=
  let '(neg, m, e) := decode_literal lit in
  match round_to_double m e with
  | dzero => [48]
  | dinfinity => js "null"
  | dfinite q p => (if neg then [45] else []) ++ Number_toString q p
  end.

(** *** JSON.stringify on any value (ECMA-262, 25.5.2) *)

(** The texts of the elements of an array, or of the members of an
    object, with commas between them. *)
Fixpoint join_texts {A : Type} (f : A -> jsstring) (l : list A) : jsstring :=
  match l with
  | [] => []
  | x :: r =>
      match r with
      | [] => f x
      | _ :: _ => f x ++ [44] ++ join_texts f r
      end
  end.

(** SerializeJSONProperty, no gap, on the values [JSON.parse] and the
    updaters of the component produce: no [undefined] among them, no
    function, no cycle, so nothing is left out and nothing throws. *)
Fixpoint JSON_stringify (v : value) : jsstring :=
  match v with
  | JNull => js "null"
  | JBool b => stringify_bool b
  | JNum lit => stringify_number lit
  | JStr s => QuoteJSONString s
  | JArr vs => [91] ++ join_texts JSON_stringify vs ++ [93]
  | JObj ps =>
      [123]
      ++ join_texts
           (fun p => QuoteJSONString (fst p) ++ [58] ++ JSON_stringify (snd p))
           ps
      ++ [125]
  end.

End Json.
Export Json.

(** ** The component: state, storage calls, handlers and effects *)

Module App.

Definition STORAGE_KEY : jsstring := js "@TodoList:tasks".

(** A call to [AsyncStorage]. *)
Inductive call : Type :=
| getItem (key : jsstring)
| setItem (key blob : jsstring).

(** How the promise awaited by [loadTasks] or [saveTasks] settles. *)
Inductive settled (A : Type) : Type :=
| fulfilled (a : A)
| rejected.
Arguments fulfilled {A} a.
Arguments rejected {A}.

(** The two state variables of [App], and what the component has done to
    its collaborators: the alerts shown, the lines logged, the storage
    calls issued. [version] stands for the identity of the array held by
    [tasks]: every [setTasks] of this component passes a fresh array
    (an array literal, the result of [map], of [filter] or of
    [JSON.parse]), so each call changes it. *)
Record state : Type := mkState {
  tasks : value;
  taskText : jsstring;
  version : nat;
  alerts : list (string * string);
  console : list string;
  calls : list call
}.

(** [useState([])], [useState('')]. *)
Definition init : state :=
  {| tasks := JArr []; taskText := []; version := 0;
     alerts := []; console := []; calls := [] |}.

Definition setTasks (v : value) (st : state) : state :=
  {| tasks := v; taskText := taskText st; version := S (version st);
     alerts := alerts st; console := console st; calls := calls st |}.

Definition setTaskText (s : jsstring) (st : state) : state :=
  {| tasks := tasks st; taskText := s; version := version st;
     alerts := alerts st; console := console st; calls := calls st |}.

Definition issue (c : call) (st : state) : state :=
  {| tasks := tasks st; taskText := taskText st; version := version st;
     alerts := alerts st; console := console st;
     calls := calls st ++ [c] |}.

(** [Alert.alert(title, message); console.error(line, error)] *)
Definition report (title message line : string) (st : state) : state :=
  {| tasks := tasks st; taskText := taskText st; version := version st;
     alerts := alerts st ++ [(title, message)];
     console := console st ++ [line]; calls := calls st |}.

Definition load_alert : string * string :=
  ("Erro ao carregar"%string,
   "Houve um erro ao carregar as tarefas salvas."%string).

Definition save_alert : string * string :=
  ("Erro ao salvar"%string, "Houve um erro ao salvar as tarefas."%string).

Definition load_catch (st : state) : state :=
  report (fst load_alert) (snd load_alert) "Erro ao carregar tarefas:" st.

Definition save_catch (st : state) : state :=
  report (fst save_alert) (snd save_alert) "Erro ao salvar tarefas:" st.

(** [loadTasks] up to its [await]: the read is issued. *)
Definition loadTasks_begin (st : state) : state :=
  issue (getItem STORAGE_KEY) st.

(** [loadTasks] from its [await] on. [getItem] fulfils with [null] (here
    [None]) or with the stored string; the empty string is falsy. A
    rejection of the read and a [SyntaxError] of [JSON.parse] both reach the
    [catch]. *)
Definition loadTasks_resume (r : settled (option jsstring)) (st : state)
  : state :=
  match r with
  | rejected => load_catch st
  | fulfilled None => st
  | fulfilled (Some storedTasks) =>
      match storedTasks with
      | [] => st
      | _ :: _ =>
          match JSON_parse storedTasks with
          | Some v => setTasks v st
          | None => load_catch st
          end
      end
  end.

(** [saveTasks] up to its [await]: the value is serialized and the write
    is issued. [JSON.stringify] throws on no value that [tasks] can hold
    (see [JSON_stringify]), so the [catch] is not reached here and the
    result is always [Some]. *)
Definition saveTasks_begin (currentTasks : value) (st : state)
  : option state :=
  Some (issue (setItem STORAGE_KEY (JSON_stringify currentTasks)) st).

(** [saveTasks] from its [await] on. *)
Definition saveTasks_resume (r : settled unit) (st : state) : state :=
  match r with
  | fulfilled _ => st
  | rejected => save_catch st
  end.

(** The updaters on whatever [tasks] holds: the empty array, the result
    of an updater, or any value [JSON.parse] has read. [None] is a
    [TypeError] thrown by the updater; nothing catches it and the component
    is gone. *)

Fixpoint lookup (k : jsstring) (ps : list (jsstring * value))
  : option value :=
  match ps with
  | [] => None
  | (k', v) :: ps' => if JsString.eqb k' k then Some v else lookup k ps'
  end.

(** [v.id] and [v.isCompleted] ([k] is one of these two keys, which no
    prototype, no string and no array defines): a [TypeError] on [null],
    the own property of an object, [undefined] (the inner [None])
    otherwise. *)
Definition property (v : value) (k : jsstring) : option (option value) :=
  match v with
  | JNull => None
  | JObj ps => Some (lookup k ps)
  | _ => Some None
  end.

(** ToBoolean. *)
Definition truthy (o : option value) : bool :=
  match o with
  | None | Some JNull => false
  | Some (JBool b) => b
  | Some (JNum lit) =>
      let '(_, m, e) := decode_literal lit in
      match round_to_double m e with
      | dzero => false
      | _ => true
      end
  | Some (JStr s) => match s with [] => false | _ :: _ => true end
  | Some (JArr _) | Some (JObj _) => true
  end.

(** [o === k] for the string [k]. *)
Definition is_string (k : jsstring) (o : option value) : bool :=
  match o with
  | Some (JStr s) => JsString.eqb s k
  | _ => false
  end.

(** The code points of a string, as the string iterator gives them. *)
Fixpoint code_points (s : jsstring) : list jsstring :=
  match s with
  | [] => []
  | c :: r =>
      if is_high_surrogate c then
        match r with
        | d :: r' =>
            if is_low_surrogate d then [c; d] :: code_points r'
            else [c] :: code_points r
        | [] => [[c]]
        end
      else [c] :: code_points r
  end.

(** [prevTasks => [newTask, ...prevTasks]]: an array and a string are
    iterable, nothing else among the values is. *)
Definition prepend (task : value) (prevTasks : value) : option value :=
  match prevTasks with
  | JArr vs => Some (JArr (task :: vs))
  | JStr s => Some (JArr (task :: map JStr (code_points s)))
  | _ => None
  end.

(** The callback of [toggleTask]. Reading [task.id] throws on [null];
    only an object can have the string [k] as its [id], and for it the
    spread copies the properties in their order and [isCompleted] is then
    defined: in place when the task has it, last otherwise. *)
Definition toggle_item (k : jsstring) (task : value) : option value :=
  match task with
  | JNull => None
  | JObj ps =>
      if is_string k (lookup (js "id") ps) then
        Some (JObj (define_property ps
                      (js "isCompleted",
                       JBool (negb (truthy (lookup (js "isCompleted") ps))))))
      else Some task
  | _ => Some task
  end.

Fixpoint map_items (f : value -> option value) (vs : list value)
  : option (list value) :=
  match vs with
  | [] => Some []
  | v :: vs' =>
      match f v with
      | None => None
      | Some v' =>
          match map_items f vs' with
          | None => None
          | Some vs'' => Some (v' :: vs'')
          end
      end
  end.

(** [prevTasks => prevTasks.map(...)]: only an array has [map]. *)
Definition toggle_updater (k : jsstring) (prevTasks : value)
  : option value :=
  match prevTasks with
  | JArr vs =>
      match map_items (toggle_item k) vs with
      | Some vs' => Some (JArr vs')
      | None => None
      end
  | _ => None
  end.

Fixpoint filter_items (k : jsstring) (vs : list value)
  : option (list value) :=
  match vs with
  | [] => Some []
  | v :: vs' =>
      match property v (js "id") with
      | None => None
      | Some i =>
          match filter_items k vs' with
          | None => None
          | Some vs'' => Some (if is_string k i then vs'' else v :: vs'')
          end
      end
  end.

(** [prevTasks => prevTasks.filter(task => task.id !== id)]: only an array
    has [filter]. *)
Definition delete_updater (k : jsstring) (prevTasks : value)
  : option value :=
  match prevTasks with
  | JArr vs =>
      match filter_items k vs with
      | Some vs' => Some (JArr vs')
      | None => None
      end
  | _ => None
  end.

(** [setTasks(prevTasks => f(prevTasks))]. [None] is the [TypeError] an
    updater throws on a value it cannot spread, map or filter, or on a
    [null] element; nothing catches it. *)
Definition updateTasks (f : value -> option value) (st : state)
  : option state :=
  match f (tasks st) with
  | Some v => Some (setTasks v st)
  | None => None
  end.

Definition addTask (now : Z) (st : state) : option state :=
  match trim (taskText st) with
  | [] => Some st
  | _ :: _ =>
      match updateTasks
              (prepend (value_of_task (TaskStore.newTask (taskText st) now)))
              st with
      | Some st' => Some (setTaskText [] st')
      | None => None
      end
  end.

(** [toggleTask(id)] and [deleteTask(id)] with the id of a row, a string
    for every task the component has created. *)
Definition toggleTask (k : jsstring) (st : state) : option state :=
  updateTasks (toggle_updater k) st.

Definition deleteTask (k : jsstring) (st : state) : option state :=
  updateTasks (delete_updater k) st.

(** The effect [useEffect(() => { saveTasks(tasks) }, [tasks])] after the
    render that follows a handler: it runs when [tasks] holds another
    array than before. *)
Definition commit (before : state) (after : option state) : option state :=
  match after with
  | Some st' =>
      if (version st' =? version before)%nat then Some st'
      else saveTasks_begin (tasks st') st'
  | None => None
  end.

(** The first render: both effects run, in the order of their
    declaration. *)
Definition mount : option state :=
  saveTasks_begin (tasks init) (loadTasks_begin init).

(** What the component reacts to after the first render, one at a time.
    The two row buttons pass the [id] of their row, a string in every task
    the component creates. *)
Inductive event : Type :=
| changeText (s : jsstring)                      (* onChangeText *)
| pressAdd (now : Z)                             (* onPress, onSubmitEditing *)
| pressToggle (k : jsstring)
| pressDelete (k : jsstring)
| getItemSettled (r : settled (option jsstring))
| setItemSettled (r : settled unit).

Definition handle (ev : event) (st : state) : option state :=
  match ev with
  | changeText s => Some (setTaskText s st)
  | pressAdd now => commit st (addTask now st)
  | pressToggle k => commit st (toggleTask k st)
  | pressDelete k => commit st (deleteTask k st)
  | getItemSettled r => commit st (Some (loadTasks_resume r st))
  | setItemSettled r => Some (saveTasks_resume r st)
  end.

Fixpoint run (evs : list event) (st : state) : option state :=
  match evs with
  | [] => Some st
  | ev :: evs' =>
      match handle ev st with
      | Some st' => run evs' st'
      | None => None
      end
  end.

(** The events of a mutation: the text is typed, then the button is
    pressed. *)
Definition events_of (m : TaskStore.mutation) : list event :=
  match m with
  | TaskStore.add s now => [changeText s; pressAdd now]
  | TaskStore.toggle k => [pressToggle k]
  | TaskStore.delete k => [pressDelete k]
  end.

(** The write calls among the storage calls, in the order of issue. *)
Fixpoint writes (cs : list call) : list (jsstring * jsstring) :=
  match cs with
  | [] => []
  | getItem _ :: cs' => writes cs'
  | setItem k b :: cs' => (k, b) :: writes cs'
  end.

(** A mutation that calls [setTasks]: all but the [add] of a blank text. *)
Definition effective (m : TaskStore.mutation) : bool :=
  match m with
  | TaskStore.add s _ => match trim s with [] => false | _ :: _ => true end
  | _ => true
  end.


End App.

(** ** Sample inputs *)

Module Samples.

(** Two tasks added while [Date.now()] reads the same millisecond. *)
Definition same_ms : list Task :=
  TaskStore.addTask (js "Walk dog") 1700000000000
    (TaskStore.addTask (js "Buy milk") 1700000000000 []).

(** Two tasks added a second apart, the older one completed since. *)
Definition two_tasks : list Task :=
  TaskStore.toggleTask (toString 1700000000000)
    (TaskStore.addTask (js "Walk dog") 1700000001000
       (TaskStore.addTask (js "  Buy milk ") 1700000000000 [])).

(** A text with a quote, a backslash, a line feed, a surrogate pair and a
    lone surrogate. *)
Definition odd_text : jsstring :=
  [32; 34; 92; 10; 55357; 56832; 56832; 33].

Definition odd_tasks : list Task :=
  TaskStore.deleteTask (js "0")
    (TaskStore.toggleTask (toString 1700000000000)
       (TaskStore.addTask odd_text 1700000001000
          (TaskStore.addTask (js "  Buy milk ") 1700000000000 []))).

(** Stored text that is not JSON. *)
Definition corrupt : jsstring := js "[{".

End Samples.

(** ** Sequences of mutations and of events *)

Module Sessions.

(** The list after a sequence of mutations. *)
Definition apply_all (ms : list TaskStore.mutation) (l : list Task)
  : list Task :=
  fold_left (fun l' m => TaskStore.apply m l') ms l.

(** The clock readings [generateId] is called at: those of the adds that
    pass the guard on the trimmed text. *)
Fixpoint clocks (ms : list TaskStore.mutation) : list Z :=
  match ms with
  | [] => []
  | TaskStore.add s now :: ms' =>
      match trim s with
      | [] => clocks ms'
      | _ :: _ => now :: clocks ms'
      end
  | _ :: ms' => clocks ms'
  end.

(** [subseq l1 l2]: [l1] is [l2] with some elements left out, the others
    in their order. *)
Inductive subseq {A : Type} : list A -> list A -> Prop :=
| subseq_nil : subseq [] []
| subseq_skip x l1 l2 : subseq l1 l2 -> subseq l1 (x :: l2)
| subseq_keep x l1 l2 : subseq l1 l2 -> subseq (x :: l1) (x :: l2).

(** An event whose strings are JavaScript strings. *)
Definition wf_event (ev : App.event) : Prop :=
  match ev with
  | App.changeText s => wf_string s
  | App.getItemSettled (App.fulfilled (Some blob)) => wf_string blob
  | _ => True
  end.

(** The component after its first render and a sequence of events. *)
Definition session (evs : list App.event) : option App.state :=
  match App.mount with
  | Some m => App.run evs m
  | None => None
  end.

(** The events that are the settlement of a storage call. *)
Definition is_settlement (ev : App.event) : bool :=
  match ev with
  | App.getItemSettled _ | App.setItemSettled _ => true
  | _ => false
  end.

(** The events of a sequence of mutations. *)
Definition events_of_all (ms : list TaskStore.mutation) : list App.event :=
  List.concat (map App.events_of ms).

(** The text of the last write among the storage calls. *)
Definition last_write (cs : list App.call) : option jsstring :=
  match rev (App.writes cs) with
  | [] => None
  | (_, b) :: _ => Some b
  end.

(** A value whose strings, keys included, are JavaScript strings. *)
Fixpoint wf_value (v : value) : Prop :=
  match v with
  | JStr s => wf_string s
  | JArr vs =>
      (fix all (l : list value) : Prop :=
         match l with
         | [] => True
         | x :: r => wf_value x /\ all r
         end) vs
  | JObj ps =>
      (fix all (l : list (jsstring * value)) : Prop :=
         match l with
         | [] => True
         | p :: r => (wf_string (fst p) /\ wf_value (snd p)) /\ all r
         end) ps
  | _ => True
  end.

Definition wf_member (p : jsstring * value) : Prop :=
  wf_string (fst p) /\ wf_value (snd p).

(** A parser that reads JavaScript strings out of a JavaScript string. *)
Definition wf_parser {A : Type} (P : A -> Prop)
  (p : jsstring -> option (A * jsstring)) : Prop :=
  forall s a rest, wf_string s -> p s = Some (a, rest) ->
                   P a /\ wf_string rest.

(** A write of the text of a task list that [JSON.parse] reads back. *)
Definition readable_write (kb : jsstring * jsstring) : Prop :=
  fst kb = App.STORAGE_KEY /\
  exists l, snd kb = stringify_tasks l /\
            JSON_parse (snd kb) = Some (value_of_tasks l).

(** The events that call [setTasks]. A press that mutates the list: the
    add button over a field that is not blank, a check box, a delete
    button. *)
Definition mutates (ev : App.event) (st : App.state) : bool :=
  match ev with
  | App.pressAdd _ =>
      match trim (App.taskText st) with [] => false | _ :: _ => true end
  | App.pressToggle _ | App.pressDelete _ => true
  | _ => false
  end.

(** A read that brings a value to replace the list. *)
Definition replaces (ev : App.event) : bool :=
  match ev with
  | App.getItemSettled (App.fulfilled (Some (c :: blob))) =>
      match JSON_parse (c :: blob) with Some _ => true | None => false end
  | _ => false
  end.





(** The component after its first render. *)
Definition mounted : App.state :=
  App.issue (App.setItem App.STORAGE_KEY (JSON_stringify (JArr [])))
    (App.loadTasks_begin App.init).

(** The state a sequence of events leads to, or, when an updater throws
    on the way, the state the component was in by then. *)
Fixpoint run_to_crash (evs : list App.event) (st : App.state) : App.state :=
  match evs with
  | [] => st
  | ev :: evs' =>
      match App.handle ev st with
      | Some st' => run_to_crash evs' st'
      | None => st
      end
  end.

(** A read that brings nothing, or the text of a task list. *)
Definition reads_task_list (ev : App.event) : Prop :=
  match ev with
  | App.getItemSettled (App.fulfilled (Some blob)) =>
      blob = [] \/ JSON_parse blob = None \/
      exists l, JSON_parse blob = Some (value_of_tasks l)
  | _ => True
  end.

End Sessions.

(** ** The list on screen *)

Module View.

(** What [TaskItem] renders for one task: the text of the check box, the
    task text, whether the completed styles apply ([styles.checkMark] on
    the mark, [styles.taskCompletedText] on the text), and the events its
    two buttons raise. [key] is what [keyExtractor] gives [FlatList]. *)
Record row : Type := mkRow {
  key : jsstring;
  checkMark : string;
  label : jsstring;
  completedStyle : bool;
  onCheck : App.event;
  onDelete : App.event
}.

Definition TaskItem (item : Task) : row :=
  {| key := id item;
     checkMark := if isCompleted item then "✓"%string else ""%string;
     label := text item;
     completedStyle := isCompleted item;
     onCheck := App.pressToggle (id item);
     onDelete := App.pressDelete (id item) |}.

(** [<FlatList data={tasks} renderItem={TaskItem} />] *)
Definition FlatList (data : list Task) : list row := map TaskItem data.


End View.

(** * Proofs *)

(** ** Strings *)

Module JsStringFacts.

Lemma eqb_eq (s t : jsstring) : JsString.eqb s t = true <-> s = t.
Proof.
  revert t; induction s as [|c s IH]; intros [|d t]; simpl;
    try (split; [discriminate | discriminate]); try tauto.
  rewrite andb_true_iff, N.eqb_eq, IH.
  split; [intros [-> ->]; reflexivity | intros H; inversion H; auto].
Qed.

Lemma eqb_refl (s : jsstring) : JsString.eqb s s = true.
Proof. apply eqb_eq; reflexivity. Qed.

Lemma eqb_neq (s t : jsstring) : JsString.eqb s t = false <-> s <> t.
Proof.
  rewrite <- eqb_eq. destruct (JsString.eqb s t); split; congruence.
Qed.

Lemma wf_js (s : string) : wf_string (js s).
Proof.
  unfold wf_string, js. apply Forall_forall. intros c Hc.
  apply in_map_iff in Hc. destruct Hc as [a [<- _]].
  unfold wf_unit. pose proof (N_ascii_bounded a). lia.
Qed.

Lemma wf_toString (n : Z) : wf_string (toString n).
Proof. apply wf_js. Qed.

Lemma wf_trimStart (s : jsstring) : wf_string s -> wf_string (trimStart s).
Proof.
  induction 1 as [|c s Hc Hs IH]; simpl; [constructor|].
  destruct (is_trim_space c); [assumption | constructor; assumption].
Qed.

Lemma wf_rev (s : jsstring) : wf_string s -> wf_string (rev s).
Proof.
  unfold wf_string. rewrite !Forall_forall. intros H c Hc.
  apply H, in_rev, Hc.
Qed.

Lemma wf_trim (s : jsstring) : wf_string s -> wf_string (trim s).
Proof.
  intros H. unfold trim, trimEnd.
  apply wf_rev, wf_trimStart, wf_rev, wf_trimStart, H.
Qed.

End JsStringFacts.

(** ** The task store *)

Module TaskStoreFacts.
Import TaskStore JsStringFacts.

Lemma flip_flip (t : Task) : flip (flip t) = t.
Proof. destruct t as [i x b]; unfold flip; simpl. rewrite negb_involutive. reflexivity. Qed.

Lemma ids_toggleTask (k : jsstring) (l : list Task) :
  ids (toggleTask k l) = ids l.
Proof.
  unfold ids, toggleTask. rewrite map_map. apply map_ext.
  intros t. destruct (JsString.eqb (id t) k); reflexivity.
Qed.

Lemma toggleTask_absent (k : jsstring) (l : list Task) :
  ~ In k (ids l) -> toggleTask k l = l.
Proof.
  induction l as [|t l IH]; simpl; intros H; [reflexivity|].
  destruct (JsString.eqb (id t) k) eqn:E.
  - apply eqb_eq in E. tauto.
  - f_equal. apply IH. tauto.
Qed.

Lemma deleteTask_absent (k : jsstring) (l : list Task) :
  ~ In k (ids l) -> deleteTask k l = l.
Proof.
  induction l as [|t l IH]; simpl; intros H; [reflexivity|].
  destruct (JsString.eqb (id t) k) eqn:E; simpl.
  - apply eqb_eq in E. tauto.
  - f_equal. apply IH. tauto.
Qed.

Lemma in_ids_split (k : jsstring) (l : list Task) :
  In k (ids l) -> exists l1 t l2, l = l1 ++ t :: l2 /\ id t = k.
Proof.
  unfold ids. intros H. apply in_map_iff in H. destruct H as [t [Ht Hin]].
  apply in_split in Hin. destruct Hin as [l1 [l2 ->]].
  exists l1, t, l2. auto.
Qed.

Lemma NoDup_ids_middle (l1 l2 : list Task) (t : Task) :
  NoDup (ids (l1 ++ t :: l2)) ->
  ~ In (id t) (ids l1) /\ ~ In (id t) (ids l2).
Proof.
  unfold ids. rewrite map_app. simpl. intros H.
  apply NoDup_remove_2 in H. rewrite in_app_iff in H. tauto.
Qed.

Lemma toggleTask_app (k : jsstring) (l1 l2 : list Task) :
  toggleTask k (l1 ++ l2) = toggleTask k l1 ++ toggleTask k l2.
Proof. apply map_app. Qed.

Lemma deleteTask_app (k : jsstring) (l1 l2 : list Task) :
  deleteTask k (l1 ++ l2) = deleteTask k l1 ++ deleteTask k l2.
Proof. apply filter_app. Qed.

Lemma NoDup_ids_deleteTask (k : jsstring) (l : list Task) :
  NoDup (ids l) -> NoDup (ids (deleteTask k l)).
Proof.
  induction l as [|t l IH]; simpl; intros H; [constructor|].
  inversion H as [|? ? Hn Hd]; subst.
  destruct (JsString.eqb (id t) k); simpl; [auto|].
  constructor; [|auto].
  intros Hin. apply Hn. unfold ids in *. apply in_map_iff in Hin.
  destruct Hin as [u [Hu Hin]]. apply filter_In in Hin.
  apply in_map_iff. exists u. tauto.
Qed.

Lemma NoDup_ids_toggleTask (k : jsstring) (l : list Task) :
  NoDup (ids l) -> NoDup (ids (toggleTask k l)).
Proof. rewrite ids_toggleTask. auto. Qed.

(** [addTask] keeps the ids distinct when the clock gives an id that no
    task of the list carries. *)
Lemma NoDup_ids_addTask (s : jsstring) (now : Z) (l : list Task) :
  ~ In (generateId now) (ids l) -> NoDup (ids l) ->
  NoDup (ids (addTask s now l)).
Proof.
  intros Hfresh Hd. unfold addTask. destruct (trim s); [assumption|].
  simpl. constructor; assumption.
Qed.

(** C2. [add(s)] with a blank [s] leaves the list as it is; otherwise the
    list is one longer and starts with a new task, not completed, whose text
    is [s] trimmed, followed by the former tasks in their order. *)
Theorem addTask_spec (s : jsstring) (now : Z) (l : list Task) :
  (trim s = [] -> addTask s now l = l) /\
  (trim s <> [] ->
   List.length (addTask s now l) = S (List.length l) /\
   exists t, addTask s now l = t :: l /\
             nth_error (addTask s now l) 0 = Some t /\
             text t = trim s /\ isCompleted t = false).
Proof.
  unfold addTask. split.
  - intros ->. reflexivity.
  - intros Hne. destruct (trim s) as [|c r] eqn:E; [congruence|].
    split; [reflexivity|].
    exists (newTask s now). simpl. rewrite E. auto.
Qed.

Lemma addTask_spec_witness :
  (trim (js "   ") = [] /\ addTask (js "   ") 5 [] = []) /\
  (trim (js " Buy milk ") <> [] /\
   List.length (addTask (js " Buy milk ") 5 []) = 1%nat /\
   exists t, addTask (js " Buy milk ") 5 [] = [t] /\
             nth_error (addTask (js " Buy milk ") 5 []) 0 = Some t /\
             text t = trim (js " Buy milk ") /\ isCompleted t = false).
Proof.
  split.
  - split; [reflexivity|].
    apply (proj1 (addTask_spec (js "   ") 5 [])). reflexivity.
  - assert (H : trim (js " Buy milk ") <> []) by (vm_compute; discriminate).
    split; [exact H|].
    apply (proj2 (addTask_spec (js " Buy milk ") 5 [])). exact H.
Defined.

(** C3. [toggle(k)] flips [isCompleted] on every task whose id is [k] and
    leaves the other tasks, and the order, as they are; when the ids are
    pairwise distinct and a task has id [k], that task alone is flipped;
    toggling twice gives the list back; with no task of id [k] the list is
    unchanged. *)
Theorem toggleTask_spec (k : jsstring) (l : list Task) :
  List.length (toggleTask k l) = List.length l /\
  (forall i t, nth_error l i = Some t ->
     (id t = k -> nth_error (toggleTask k l) i = Some (flip t)) /\
     (id t <> k -> nth_error (toggleTask k l) i = Some t)) /\
  (NoDup (ids l) -> In k (ids l) ->
     exists l1 t l2, l = l1 ++ t :: l2 /\ id t = k /\
                     toggleTask k l = l1 ++ flip t :: l2) /\
  toggleTask k (toggleTask k l) = l /\
  (~ In k (ids l) -> toggleTask k l = l).
Proof.
  split; [apply length_map|].
  split.
  { intros i t Hi. unfold toggleTask. rewrite nth_error_map, Hi. simpl.
    split; intros H.
    - apply eqb_eq in H. rewrite H. reflexivity.
    - apply eqb_neq in H. rewrite H. reflexivity. }
  split.
  { intros Hd Hin. apply in_ids_split in Hin.
    destruct Hin as [l1 [t [l2 [-> Hk]]]]. exists l1, t, l2.
    split; [reflexivity|]. split; [assumption|].
    apply NoDup_ids_middle in Hd. rewrite Hk in Hd. destruct Hd as [H1 H2].
    rewrite toggleTask_app. simpl.
    rewrite (toggleTask_absent k l1 H1), (toggleTask_absent k l2 H2).
    apply eqb_eq in Hk. rewrite Hk. reflexivity. }
  split; [|apply toggleTask_absent].
  unfold toggleTask. rewrite map_map. rewrite <- (map_id l) at 2.
  apply map_ext. intros t. destruct (JsString.eqb (id t) k) eqn:E.
  - simpl. rewrite E. apply flip_flip.
  - rewrite E. reflexivity.
Qed.

Lemma toggleTask_spec_witness :
  (NoDup (ids Samples.two_tasks) /\
   In (toString 1700000001000) (ids Samples.two_tasks) /\
   exists l1 t l2, Samples.two_tasks = l1 ++ t :: l2 /\
                   id t = toString 1700000001000 /\
                   toggleTask (toString 1700000001000) Samples.two_tasks
                   = l1 ++ flip t :: l2) /\
  (~ In (js "7") (ids Samples.two_tasks) /\
   toggleTask (js "7") Samples.two_tasks = Samples.two_tasks) /\
  (nth_error Samples.two_tasks 1
   = Some (mkTask (toString 1700000000000) (js "Buy milk") true) /\
   nth_error (toggleTask (toString 1700000000000) Samples.two_tasks) 1
   = Some (mkTask (toString 1700000000000) (js "Buy milk") false) /\
   nth_error (toggleTask (toString 1700000001000) Samples.two_tasks) 1
   = Some (mkTask (toString 1700000000000) (js "Buy milk") true)).
Proof.
  assert (Hd : NoDup (ids Samples.two_tasks)).
  { vm_compute. repeat constructor; simpl; intuition discriminate. }
  assert (Hin : In (toString 1700000001000) (ids Samples.two_tasks)).
  { vm_compute. left. reflexivity. }
  assert (Hout : ~ In (js "7") (ids Samples.two_tasks)).
  { vm_compute. intuition discriminate. }
  assert (H1 : nth_error Samples.two_tasks 1
     = Some (mkTask (toString 1700000000000) (js "Buy milk") true))
    by reflexivity.
  split; [|split].
  - split; [exact Hd|]. split; [exact Hin|].
    apply (toggleTask_spec (toString 1700000001000) Samples.two_tasks);
      assumption.
  - split; [exact Hout|].
    apply (toggleTask_spec (js "7") Samples.two_tasks). exact Hout.
  - split; [exact H1|]. split.
    + apply (proj1 (proj1 (proj2 (toggleTask_spec (toString 1700000000000)
                Samples.two_tasks)) 1%nat _ H1)). reflexivity.
    + apply (proj2 (proj1 (proj2 (toggleTask_spec (toString 1700000001000)
                Samples.two_tasks)) 1%nat _ H1)). vm_compute. discriminate.
Defined.

(** C3, as stated, fails on a list two tasks of which were added within one
    millisecond: both carry the id and both are flipped. *)
Lemma toggleTask_flips_both :
  produced Samples.same_ms /\
  In (toString 1700000000000) (ids Samples.same_ms) /\
  ~ (exists l1 t l2, Samples.same_ms = l1 ++ t :: l2 /\
                     id t = toString 1700000000000 /\
                     toggleTask (toString 1700000000000) Samples.same_ms
                     = l1 ++ flip t :: l2).
Proof.
  split.
  { apply (produced_step (add (js "Walk dog") 1700000000000)).
    - apply wf_js.
    - apply (produced_step (add (js "Buy milk") 1700000000000)).
      + apply wf_js.
      + constructor. }
  split; [vm_compute; left; reflexivity|].
  intros [l1 [t [l2 [Hl [_ Ht]]]]].
  vm_compute in Hl, Ht.
  destruct l1 as [|a [|b l1]]; simpl in Hl, Ht.
  - injection Hl as <- <-. discriminate Ht.
  - injection Hl as <- Hl. injection Ht as Ht. discriminate Ht.
  - injection Hl as _ _ Hl. destruct l1; discriminate Hl.
Qed.

(** C4. When the ids are pairwise distinct and a task has id [k],
    [delete(k)] removes that task and nothing else, the others keeping
    their order; with no task of id [k] the list is unchanged. *)
Theorem deleteTask_spec (k : jsstring) (l : list Task) :
  (NoDup (ids l) -> In k (ids l) ->
     exists l1 t l2, l = l1 ++ t :: l2 /\ id t = k /\
                     deleteTask k l = l1 ++ l2) /\
  (~ In k (ids l) -> deleteTask k l = l).
Proof.
  split; [|apply deleteTask_absent].
  intros Hd Hin. apply in_ids_split in Hin.
  destruct Hin as [l1 [t [l2 [-> Hk]]]]. exists l1, t, l2.
  split; [reflexivity|]. split; [assumption|].
  apply NoDup_ids_middle in Hd. rewrite Hk in Hd. destruct Hd as [H1 H2].
  rewrite deleteTask_app. simpl.
  rewrite (deleteTask_absent k l1 H1), (deleteTask_absent k l2 H2).
  apply eqb_eq in Hk. rewrite Hk. reflexivity.
Qed.

Lemma deleteTask_spec_witness :
  (NoDup (ids Samples.two_tasks) /\
   In (toString 1700000001000) (ids Samples.two_tasks) /\
   exists l1 t l2, Samples.two_tasks = l1 ++ t :: l2 /\
                   id t = toString 1700000001000 /\
                   deleteTask (toString 1700000001000) Samples.two_tasks
                   = l1 ++ l2) /\
  (~ In (js "7") (ids Samples.two_tasks) /\
   deleteTask (js "7") Samples.two_tasks = Samples.two_tasks).
Proof.
  assert (Hd : NoDup (ids Samples.two_tasks)).
  { vm_compute. repeat constructor; simpl; intuition discriminate. }
  assert (Hin : In (toString 1700000001000) (ids Samples.two_tasks)).
  { vm_compute. left. reflexivity. }
  assert (Hout : ~ In (js "7") (ids Samples.two_tasks)).
  { vm_compute. intuition discriminate. }
  split.
  - split; [exact Hd|]. split; [exact Hin|].
    apply (deleteTask_spec (toString 1700000001000) Samples.two_tasks);
      assumption.
  - split; [exact Hout|].
    apply (deleteTask_spec (js "7") Samples.two_tasks). exact Hout.
Defined.

(** C4, as stated, fails on a list two tasks of which were added within one
    millisecond: deleting by their id removes the two. *)
Lemma deleteTask_removes_both :
  produced Samples.same_ms /\
  In (toString 1700000000000) (ids Samples.same_ms) /\
  deleteTask (toString 1700000000000) Samples.same_ms = [] /\
  ~ (exists l1 t l2, Samples.same_ms = l1 ++ t :: l2 /\
                     id t = toString 1700000000000 /\
                     deleteTask (toString 1700000000000) Samples.same_ms
                     = l1 ++ l2).
Proof.
  split.
  { apply (produced_step (add (js "Walk dog") 1700000000000)).
    - apply wf_js.
    - apply (produced_step (add (js "Buy milk") 1700000000000)).
      + apply wf_js.
      + constructor. }
  split; [vm_compute; left; reflexivity|].
  split; [reflexivity|].
  intros [l1 [t [l2 [Hl [_ Ht]]]]].
  vm_compute in Hl, Ht. symmetry in Ht.
  apply app_eq_nil in Ht. destruct Ht as [-> ->]. discriminate.
Qed.

(** C9. [delete(k)] keeps the tasks whose id is not [k], in their order,
    and no other: no task of id [k] is left, and the list is shorter by the
    number of tasks that had id [k], which may exceed one. *)
Theorem deleteTask_filters (k : jsstring) (l : list Task) :
  ~ In k (ids (deleteTask k l)) /\
  (forall t, In t (deleteTask k l) <-> In t l /\ id t <> k) /\
  (forall l1 l2, l = l1 ++ l2 ->
     deleteTask k l = deleteTask k l1 ++ deleteTask k l2) /\
  List.length l = (List.length (deleteTask k l) + count_id k l)%nat /\
  count_id (toString 1700000000000) Samples.same_ms = 2%nat /\
  deleteTask (toString 1700000000000) Samples.same_ms = [].
Proof.
  split.
  { unfold ids, deleteTask. intros H. apply in_map_iff in H.
    destruct H as [t [Hk Hin]]. apply filter_In in Hin.
    destruct Hin as [_ Hb]. apply eqb_eq in Hk. rewrite Hk in Hb.
    discriminate. }
  split.
  { intros t. unfold deleteTask. rewrite filter_In, negb_true_iff, eqb_neq.
    tauto. }
  split; [intros l1 l2 ->; apply deleteTask_app|].
  split; [|split; reflexivity].
  unfold deleteTask, count_id. induction l as [|t l IH]; [reflexivity|].
  simpl. destruct (JsString.eqb (id t) k); simpl; lia.
Qed.

Lemma deleteTask_filters_witness :
  Samples.two_tasks = [hd (mkTask [] [] false) Samples.two_tasks]
                      ++ tl Samples.two_tasks /\
  deleteTask (toString 1700000000000) Samples.two_tasks
  = deleteTask (toString 1700000000000)
      [hd (mkTask [] [] false) Samples.two_tasks]
    ++ deleteTask (toString 1700000000000) (tl Samples.two_tasks).
Proof.
  assert (H : Samples.two_tasks
              = [hd (mkTask [] [] false) Samples.two_tasks]
                ++ tl Samples.two_tasks) by reflexivity.
  split; [exact H|].
  apply (proj1 (proj2 (proj2 (deleteTask_filters (toString 1700000000000)
           Samples.two_tasks))) _ _ H).
Defined.

(** C1. Two tasks added while the clock reads the same millisecond carry
    the same id: a list with distinct ids and a non-blank text on which
    [add] gives a list with a repeated id, and a produced list with a
    repeated id. *)
Theorem generateId_collides :
  NoDup (ids (addTask (js "Buy milk") 1700000000000 [])) /\
  trim (js "Walk dog") <> [] /\
  ~ NoDup (ids (addTask (js "Walk dog") 1700000000000
                  (addTask (js "Buy milk") 1700000000000 []))) /\
  produced Samples.same_ms /\ ~ NoDup (ids Samples.same_ms).
Proof.
  assert (Hdup : ~ NoDup (ids Samples.same_ms)).
  { vm_compute. intros H. inversion H as [|? ? Hn _]; subst.
    apply Hn. left. reflexivity. }
  split; [vm_compute; repeat constructor; simpl; tauto|].
  split; [vm_compute; discriminate|].
  split; [exact Hdup|].
  split; [|exact Hdup].
  apply (produced_step (add (js "Walk dog") 1700000000000)).
  - apply wf_js.
  - apply (produced_step (add (js "Buy milk") 1700000000000)).
    + apply wf_js.
    + constructor.
Qed.

End TaskStoreFacts.

(** ** JSON: what [JSON.parse] reads back from [JSON.stringify] *)

Module JsonFacts.
Import JsStringFacts.
Import TaskStore.

Lemma hex_value_digit (d : N) : d < 16 -> hex_value (hex_digit d) = Some d.
Proof.
  intros H. unfold hex_value, hex_digit, is_digit.
  destruct (d <? 10) eqn:E.
  - apply N.ltb_lt in E.
    replace ((48 <=? 48 + d) && (48 + d <=? 57)) with true.
    + f_equal. lia.
    + symmetry. apply andb_true_iff. split; apply N.leb_le; lia.
  - apply N.ltb_ge in E.
    replace ((48 <=? 87 + d) && (87 + d <=? 57)) with false.
    + replace ((97 <=? 87 + d) && (87 + d <=? 102)) with true.
      * f_equal. lia.
      * symmetry. apply andb_true_iff. split; apply N.leb_le; lia.
    + symmetry. apply andb_false_iff. right. apply N.leb_gt. lia.
Qed.

Lemma hex_positions (c : N) :
  4096 * (c / 4096) + 256 * ((c / 256) mod 16) + 16 * ((c / 16) mod 16)
  + c mod 16 = c.
Proof.
  assert (E1 : c / 256 = c / 16 / 16) by (rewrite N.Div0.div_div; reflexivity).
  assert (E2 : c / 4096 = c / 256 / 16) by (rewrite N.Div0.div_div; reflexivity).
  pose proof (N.div_mod c 16 ltac:(lia)).
  pose proof (N.div_mod (c / 16) 16 ltac:(lia)).
  pose proof (N.div_mod (c / 256) 16 ltac:(lia)).
  rewrite E2. rewrite E1 in *. lia.
Qed.

Lemma hex4_escape (c : code_unit) : wf_unit c ->
  hex4 (hex_digit (c / 4096)) (hex_digit ((c / 256) mod 16))
       (hex_digit ((c / 16) mod 16)) (hex_digit (c mod 16)) = Some c.
Proof.
  unfold wf_unit. intros H. unfold hex4.
  rewrite !hex_value_digit.
  - f_equal. apply hex_positions.
  - apply N.mod_lt; lia.
  - apply N.mod_lt; lia.
  - apply N.mod_lt; lia.
  - apply N.Div0.div_lt_upper_bound. lia.
Qed.

(** The text of one unit reads back as the unit. *)
Lemma parse_chars_quote_unit (c : code_unit) (tl : jsstring) :
  wf_unit c ->
  parse_chars (quote_unit c ++ tl) = cons_unit c (parse_chars tl).
Proof.
  intros Hc. unfold quote_unit.
  destruct (c =? 8) eqn:E8; [apply N.eqb_eq in E8; subst; reflexivity|].
  destruct (c =? 9) eqn:E9; [apply N.eqb_eq in E9; subst; reflexivity|].
  destruct (c =? 10) eqn:E10; [apply N.eqb_eq in E10; subst; reflexivity|].
  destruct (c =? 12) eqn:E12; [apply N.eqb_eq in E12; subst; reflexivity|].
  destruct (c =? 13) eqn:E13; [apply N.eqb_eq in E13; subst; reflexivity|].
  destruct (c =? 34) eqn:E34; [apply N.eqb_eq in E34; subst; reflexivity|].
  destruct (c =? 92) eqn:E92; [apply N.eqb_eq in E92; subst; reflexivity|].
  destruct ((c <? 32) || is_high_surrogate c || is_low_surrogate c) eqn:E.
  - unfold UnicodeEscape. simpl. rewrite (hex4_escape c Hc). reflexivity.
  - apply orb_false_iff in E. destruct E as [E _].
    apply orb_false_iff in E. destruct E as [E _].
    simpl. rewrite E34, E92, E. reflexivity.
Qed.

Lemma parse_chars_pair (c d : code_unit) (tl : jsstring) :
  is_high_surrogate c = true -> is_low_surrogate d = true ->
  parse_chars (c :: d :: tl) = cons_unit c (cons_unit d (parse_chars tl)).
Proof.
  unfold is_high_surrogate, is_low_surrogate.
  rewrite !andb_true_iff, !N.leb_le. intros [Hc1 Hc2] [Hd1 Hd2].
  simpl.
  replace (c =? 34) with false by (symmetry; apply N.eqb_neq; lia).
  replace (c =? 92) with false by (symmetry; apply N.eqb_neq; lia).
  replace (c <? 32) with false by (symmetry; apply N.ltb_ge; lia).
  replace (d =? 34) with false by (symmetry; apply N.eqb_neq; lia).
  replace (d =? 92) with false by (symmetry; apply N.eqb_neq; lia).
  replace (d <? 32) with false by (symmetry; apply N.ltb_ge; lia).
  reflexivity.
Qed.

(** The characters [QuoteJSONString] writes between the quotes read back
    as the string, up to the closing quote. *)
Lemma parse_chars_quote_units (s : jsstring) :
  wf_string s ->
  (forall rest, parse_chars (quote_units s ++ 34 :: rest) = Some (s, rest)) /\
  (forall c, wf_unit c -> forall rest,
     parse_chars (quote_units (c :: s) ++ 34 :: rest) = Some (c :: s, rest)).
Proof.
  induction 1 as [|d s Hd Hs [IH1 IH2]].
  - split; [reflexivity|].
    intros c Hc rest. simpl.
    destruct (is_high_surrogate c);
      [|rewrite app_nil_r]; rewrite parse_chars_quote_unit by assumption;
      reflexivity.
  - split; [intros rest; apply IH2; assumption|].
    intros c Hc rest.
    change (quote_units (c :: d :: s)) with
      (if is_high_surrogate c then
         if is_low_surrogate d then c :: d :: quote_units s
         else quote_unit c ++ quote_units (d :: s)
       else quote_unit c ++ quote_units (d :: s)).
    destruct (is_high_surrogate c) eqn:Eh; [destruct (is_low_surrogate d) eqn:El|].
    + change ((c :: d :: quote_units s) ++ 34 :: rest)
        with (c :: d :: (quote_units s ++ 34 :: rest)).
      rewrite parse_chars_pair, IH1 by assumption. reflexivity.
    + rewrite <- app_assoc, parse_chars_quote_unit, (IH2 d Hd) by assumption.
      reflexivity.
    + rewrite <- app_assoc, parse_chars_quote_unit, (IH2 d Hd) by assumption.
      reflexivity.
Qed.

Lemma QuoteJSONString_app (s rest : jsstring) :
  QuoteJSONString s ++ rest = 34 :: quote_units s ++ 34 :: rest.
Proof.
  unfold QuoteJSONString. simpl. rewrite <- app_assoc. reflexivity.
Qed.

Lemma parse_chars_QuoteJSONString (s rest : jsstring) :
  wf_string s ->
  parse_chars (quote_units s ++ 34 :: rest) = Some (s, rest).
Proof. intros H. apply (proj1 (parse_chars_quote_units s H)). Qed.

Lemma parse_value_S (f : nat) (s : jsstring) :
  parse_value (S f) s = value_step (parse_elements f) (parse_members f) s.
Proof. reflexivity. Qed.

Lemma parse_elements_S (f : nat) (s : jsstring) :
  parse_elements (S f) s
  = elements_step (parse_value f) (parse_elements f) s.
Proof. reflexivity. Qed.

Lemma parse_members_S (f : nat) (s : jsstring) :
  parse_members (S f) s = members_step (parse_value f) (parse_members f) s.
Proof. reflexivity. Qed.

Lemma parse_value_string (f : nat) (s rest : jsstring) :
  wf_string s ->
  parse_value (S f) (QuoteJSONString s ++ rest) = Some (JStr s, rest).
Proof.
  intros H. rewrite QuoteJSONString_app, parse_value_S.
  unfold value_step. simpl.
  rewrite parse_chars_QuoteJSONString by assumption. reflexivity.
Qed.

Lemma parse_value_bool (f : nat) (b : bool) (rest : jsstring) :
  parse_value (S f) (stringify_bool b ++ rest) = Some (JBool b, rest).
Proof. destruct b; reflexivity. Qed.

(** One member of an object, followed by another. *)
Lemma parse_members_more (f : nat) (k txt more : jsstring) (v : value) :
  wf_string k ->
  parse_value f (txt ++ 44 :: more) = Some (v, 44 :: more) ->
  parse_members (S f) (QuoteJSONString k ++ 58 :: txt ++ 44 :: more)
  = match parse_members f more with
    | Some (ms, rest) => Some ((k, v) :: ms, rest)
    | None => None
    end.
Proof.
  intros Hk Hv. rewrite QuoteJSONString_app, parse_members_S.
  unfold members_step. simpl.
  rewrite parse_chars_QuoteJSONString by assumption. simpl.
  rewrite Hv. reflexivity.
Qed.

(** The last member of an object. *)
Lemma parse_members_last (f : nat) (k txt rest : jsstring) (v : value) :
  wf_string k ->
  parse_value f (txt ++ 125 :: rest) = Some (v, 125 :: rest) ->
  parse_members (S f) (QuoteJSONString k ++ 58 :: txt ++ 125 :: rest)
  = Some ([(k, v)], rest).
Proof.
  intros Hk Hv. rewrite QuoteJSONString_app, parse_members_S.
  unfold members_step. simpl.
  rewrite parse_chars_QuoteJSONString by assumption. simpl.
  rewrite Hv. reflexivity.
Qed.

(** An object that starts with a key. *)
Lemma parse_value_object (f : nat) (k r : jsstring) :
  parse_value (S f) (123 :: QuoteJSONString k ++ r)
  = match parse_members f (QuoteJSONString k ++ r) with
    | Some (ms, rest) => Some (object_of_members ms, rest)
    | None => None
    end.
Proof. reflexivity. Qed.

Lemma stringify_task_members (t : Task) (rest : jsstring) :
  stringify_task t ++ rest
  = 123 :: QuoteJSONString (js "id") ++ 58 :: QuoteJSONString (id t)
    ++ 44 :: QuoteJSONString (js "text") ++ 58 :: QuoteJSONString (text t)
    ++ 44 :: QuoteJSONString (js "isCompleted") ++ 58
    :: stringify_bool (isCompleted t) ++ 125 :: rest.
Proof.
  unfold stringify_task.
  change (js "{") with [123]. change (js ":") with [58].
  change (js ",") with [44]. change (js "}") with [125].
  repeat (rewrite <- app_assoc; simpl). reflexivity.
Qed.

Lemma parse_value_task (f : nat) (t : Task) (rest : jsstring) :
  wf_task t ->
  parse_value (5 + f) (stringify_task t ++ rest) = Some (value_of_task t, rest).
Proof.
  intros [Hi Ht]. rewrite stringify_task_members.
  change (5 + f)%nat with (S (S (S (S (S f))))).
  rewrite parse_value_object.
  rewrite (parse_members_more (S (S (S f))) (js "id") _ _ (JStr (id t)));
    [|apply wf_js|apply parse_value_string; assumption].
  rewrite (parse_members_more (S (S f)) (js "text") _ _ (JStr (text t)));
    [|apply wf_js|apply parse_value_string; assumption].
  rewrite (parse_members_last (S f) (js "isCompleted") _ _
             (JBool (isCompleted t)));
    [|apply wf_js|apply parse_value_bool].
  reflexivity.
Qed.

Lemma stringify_task_head (t : Task) :
  exists r, stringify_task t = 123 :: 34 :: r.
Proof. eexists. reflexivity. Qed.

Lemma parse_elements_one (f : nat) (t : Task) (rest : jsstring) :
  wf_task t ->
  parse_elements (6 + f) (stringify_task t ++ 93 :: rest)
  = Some ([value_of_task t], rest).
Proof.
  intros H. change (6 + f)%nat with (S (5 + f)).
  rewrite parse_elements_S. unfold elements_step.
  rewrite (parse_value_task f t (93 :: rest) H). reflexivity.
Qed.

Lemma parse_elements_cons (f : nat) (t : Task) (more : jsstring) :
  wf_task t ->
  parse_elements (6 + f) (stringify_task t ++ 44 :: more)
  = match parse_elements (5 + f) more with
    | Some (vs, rest) => Some (value_of_task t :: vs, rest)
    | None => None
    end.
Proof.
  intros H. change (6 + f)%nat with (S (5 + f)).
  rewrite parse_elements_S. unfold elements_step.
  rewrite (parse_value_task f t (44 :: more) H). reflexivity.
Qed.

(** The elements of a non-empty array of tasks, up to the bracket. *)
Lemma parse_elements_tasks (l : list Task) :
  Forall wf_task l -> l <> [] ->
  forall (f : nat) (rest : jsstring),
    parse_elements (List.length l + 5 + f) (join_tasks l ++ 93 :: rest)
    = Some (map value_of_task l, rest).
Proof.
  induction 1 as [|t l Ht Hl IH]; [congruence|]. intros _ f rest.
  destruct l as [|u l].
  - apply (parse_elements_one f t rest Ht).
  - change (join_tasks (t :: u :: l))
      with (stringify_task t ++ js "," ++ join_tasks (u :: l)).
    change (js ",") with [44].
    rewrite <- !app_assoc. simpl ([44] ++ _).
    change (List.length (t :: u :: l) + 5 + f)%nat
      with (S (List.length (u :: l)) + 5 + f)%nat.
    replace (S (List.length (u :: l)) + 5 + f)%nat
      with (6 + (List.length (u :: l) + f))%nat by lia.
    rewrite parse_elements_cons by assumption.
    replace (5 + (List.length (u :: l) + f))%nat
      with (List.length (u :: l) + 5 + f)%nat by lia.
    rewrite IH by discriminate. reflexivity.
Qed.

Lemma parse_value_array (f : nat) (r : jsstring) :
  parse_value (S f) (91 :: 123 :: r)
  = match parse_elements f (123 :: r) with
    | Some (vs, rest) => Some (JArr vs, rest)
    | None => None
    end.
Proof. reflexivity. Qed.

Lemma join_tasks_head (l : list Task) :
  l <> [] -> exists r, join_tasks l = 123 :: r.
Proof.
  destruct l as [|t [|u l]]; [congruence| |]; intros _; eexists; reflexivity.
Qed.

Lemma length_join_tasks (l : list Task) :
  (List.length l <= List.length (join_tasks l))%nat.
Proof.
  induction l as [|t [|u l] IH]; [apply le_n| |].
  - change (join_tasks [t]) with (stringify_task t).
    destruct (stringify_task_head t) as [r ->]. simpl. lia.
  - change (join_tasks (t :: u :: l))
      with (stringify_task t ++ js "," ++ join_tasks (u :: l)).
    rewrite !length_app. simpl List.length in *. lia.
Qed.

(** The text of a task list reads back as the list, with enough fuel. *)
Lemma parse_value_tasks (l : list Task) (f : nat) (rest : jsstring) :
  Forall wf_task l ->
  parse_value (List.length l + 6 + f) (stringify_tasks l ++ rest)
  = Some (value_of_tasks l, rest).
Proof.
  intros H. unfold stringify_tasks, value_of_tasks.
  change (js "[") with [91]. change (js "]") with [93].
  rewrite <- !app_assoc. simpl ([91] ++ _). simpl ([93] ++ _).
  destruct l as [|t l]; [reflexivity|].
  destruct (join_tasks_head (t :: l)) as [r Er]; [discriminate|].
  replace (List.length (t :: l) + 6 + f)%nat
    with (S (List.length (t :: l) + 5 + f)) by lia.
  rewrite Er. simpl ((123 :: r) ++ _).
  rewrite parse_value_array.
  change (123 :: r ++ 93 :: rest) with ((123 :: r) ++ 93 :: rest).
  rewrite <- Er, parse_elements_tasks by (assumption || discriminate).
  reflexivity.
Qed.

Lemma all_tasks_values (l : list Task) :
  all_tasks (map value_of_task l) = Some l.
Proof.
  induction l as [|[i x b] l IH]; [reflexivity|].
  simpl map. cbn [all_tasks]. rewrite IH. reflexivity.
Qed.

Lemma tasks_of_value_of_tasks (l : list Task) :
  tasks_of_value (value_of_tasks l) = Some l.
Proof. apply all_tasks_values. Qed.

(** [JSON.parse(JSON.stringify(l))] is the list [l]. *)
Lemma JSON_parse_stringify_tasks (l : list Task) :
  Forall wf_task l ->
  JSON_parse (stringify_tasks l) = Some (value_of_tasks l).
Proof.
  intros H. destruct l as [|t l]; [reflexivity|].
  unfold JSON_parse.
  pose proof (length_join_tasks (t :: l)) as Hlen.
  assert (Hs : List.length (stringify_tasks (t :: l))
               = (List.length (join_tasks (t :: l)) + 2)%nat).
  { unfold stringify_tasks. rewrite !length_app. simpl. lia. }
  rewrite Hs.
  replace (2 * (List.length (join_tasks (t :: l)) + 2) + 1)%nat
    with (List.length (t :: l) + 6
          + (2 * List.length (join_tasks (t :: l))
             - List.length (t :: l) - 1))%nat
    by (simpl List.length in *; lia).
  rewrite <- (app_nil_r (stringify_tasks (t :: l))) at 1.
  rewrite parse_value_tasks by assumption. reflexivity.
Qed.

Lemma join_texts_tasks (l : list Task) :
  join_texts JSON_stringify (map value_of_task l) = join_tasks l.
Proof.
  assert (G : forall t, JSON_stringify (value_of_task t) = stringify_task t).
  { intros t. unfold stringify_task, value_of_task.
    cbn [JSON_stringify join_texts fst snd].
    change (js "{") with [123]. change (js ":") with [58].
    change (js ",") with [44]. change (js "}") with [125].
    rewrite <- !app_assoc. reflexivity. }
  induction l as [|t [|u l] IH]; [reflexivity| |].
  - apply G.
  - change (join_tasks (t :: u :: l))
      with (stringify_task t ++ js "," ++ join_tasks (u :: l)).
    rewrite <- IH, <- G. reflexivity.
Qed.

(** On a task list [JSON.stringify] writes the text of [stringify_tasks]. *)
Lemma JSON_stringify_tasks (l : list Task) :
  JSON_stringify (value_of_tasks l) = stringify_tasks l.
Proof.
  unfold value_of_tasks, stringify_tasks. cbn [JSON_stringify].
  rewrite join_texts_tasks. reflexivity.
Qed.

End JsonFacts.

(** ** JSON.parse: the fuel of [JSON_parse] is enough *)

Module ParserFacts.
Import JsonFacts.

Lemma skip_ws_length (s : jsstring) :
  (List.length (skip_ws s) <= List.length s)%nat.
Proof.
  induction s as [|c s IH]; simpl; [lia|].
  destruct (is_json_ws c); simpl; lia.
Qed.

Lemma skip_ws_cons (s r : jsstring) (c : code_unit) :
  skip_ws s = c :: r -> (List.length r < List.length s)%nat.
Proof.
  intros H. pose proof (skip_ws_length s) as Hl. rewrite H in Hl.
  simpl in Hl. lia.
Qed.

Lemma cons_unit_length (c : code_unit) (o : option (jsstring * jsstring))
  (str rest : jsstring) (n : nat) :
  (forall str' rest', o = Some (str', rest') -> (List.length rest' < n)%nat) ->
  cons_unit c o = Some (str, rest) -> (List.length rest < n)%nat.
Proof.
  intros Ho. destruct o as [[str' rest']|]; simpl; [|discriminate].
  intros H. injection H as _ <-. apply (Ho _ _ eq_refl).
Qed.

(** A string literal is at least its closing quote. *)
Lemma parse_chars_length (n : nat) :
  forall s str rest,
    (List.length s <= n)%nat ->
    parse_chars s = Some (str, rest) ->
    (List.length rest < List.length s)%nat.
Proof.
  induction n as [|n IH]; intros s str rest Hn H.
  - destruct s; [discriminate|simpl in Hn; lia].
  - destruct s as [|c r]; [discriminate|]. simpl in Hn.
    cbn [parse_chars] in H.
    destruct (c =? 34).
    { injection H as _ <-. simpl. lia. }
    destruct (c =? 92).
    + destruct r as [|e r1]; [discriminate|].
      destruct (e =? 117).
      * destruct r1 as [|h1 [|h2 [|h3 [|h4 r2]]]]; try discriminate.
        destruct (hex4 h1 h2 h3 h4); [|discriminate].
        apply (cons_unit_length _ _ _ _ (List.length (c :: e :: h1 :: h2 :: h3 :: h4 :: r2))) in H;
          [exact H|].
        intros str' rest' H'. apply IH in H'; simpl in *; lia.
      * destruct (escape_char e); [|discriminate].
        apply (cons_unit_length _ _ _ _ (List.length (c :: e :: r1))) in H;
          [exact H|].
        intros str' rest' H'. apply IH in H'; simpl in *; lia.
    + destruct (c <? 32); [discriminate|].
      apply (cons_unit_length _ _ _ _ (List.length (c :: r))) in H;
        [exact H|].
      intros str' rest' H'. apply IH in H'; simpl in *; lia.
Qed.

Lemma parse_chars_shorter (s str rest : jsstring) :
  parse_chars s = Some (str, rest) ->
  (List.length rest < List.length s)%nat.
Proof. apply (parse_chars_length (List.length s)). lia. Qed.

Lemma strip_prefix_length (p s rest : jsstring) :
  strip_prefix p s = Some rest ->
  List.length s = (List.length p + List.length rest)%nat.
Proof.
  revert s. induction p as [|a p IH]; intros s; simpl.
  - intros H. injection H as <-. reflexivity.
  - destruct s as [|b s]; [discriminate|].
    destruct (a =? b); [|discriminate].
    intros H. apply IH in H. simpl. lia.
Qed.

Lemma take_digits_length (s ds rest : jsstring) :
  take_digits s = (ds, rest) -> (List.length rest <= List.length s)%nat.
Proof.
  revert ds rest. induction s as [|c s IH]; intros ds rest; simpl.
  - intros H. injection H as _ <-. simpl. lia.
  - destruct (is_digit c).
    + destruct (take_digits s) as [ds' rest'] eqn:E.
      intros H. injection H as _ <-. specialize (IH _ _ eq_refl). lia.
    + intros H. injection H as _ <-. simpl. lia.
Qed.

Lemma digits1_length (s ds rest : jsstring) :
  digits1 s = Some (ds, rest) -> (List.length rest <= List.length s)%nat.
Proof.
  unfold digits1. destruct (take_digits s) as [[|d ds'] rest'] eqn:E;
    [discriminate|].
  intros H. injection H as _ <-. apply (take_digits_length _ _ _ E).
Qed.

Lemma parse_int_part_length (s i rest : jsstring) :
  parse_int_part s = Some (i, rest) ->
  (List.length rest < List.length s)%nat.
Proof.
  unfold parse_int_part. destruct s as [|c r]; [discriminate|].
  destruct (c =? 48).
  - intros H. injection H as _ <-. simpl. lia.
  - destruct (is_digit c); [|discriminate].
    destruct (take_digits r) as [ds rest'] eqn:E.
    intros H. injection H as _ <-. apply take_digits_length in E.
    simpl. lia.
Qed.

Lemma parse_fraction_length (s f rest : jsstring) :
  parse_fraction s = Some (f, rest) ->
  (List.length rest <= List.length s)%nat.
Proof.
  unfold parse_fraction. destruct s as [|c r].
  - intros H. injection H as _ <-. lia.
  - destruct (c =? 46).
    + destruct (digits1 r) as [[ds rest']|] eqn:E; [|discriminate].
      intros H. injection H as _ <-. apply digits1_length in E. simpl. lia.
    + intros H. injection H as _ <-. lia.
Qed.

Lemma parse_exponent_length (s e rest : jsstring) :
  parse_exponent s = Some (e, rest) ->
  (List.length rest <= List.length s)%nat.
Proof.
  unfold parse_exponent. destruct s as [|c r].
  - intros H. injection H as _ <-. lia.
  - destruct ((c =? 101) || (c =? 69)).
    + destruct r as [|d r'].
      * destruct (digits1 []) as [[ds rest']|] eqn:E; [|discriminate].
        intros H. injection H as _ <-. apply digits1_length in E.
        simpl in *. lia.
      * destruct ((d =? 43) || (d =? 45)).
        -- destruct (digits1 r') as [[ds rest']|] eqn:E; [|discriminate].
           intros H. injection H as _ <-. apply digits1_length in E.
           simpl in *. lia.
        -- destruct (digits1 (d :: r')) as [[ds rest']|] eqn:E;
             [|discriminate].
           intros H. injection H as _ <-. apply digits1_length in E.
           simpl in *. lia.
    + intros H. injection H as _ <-. lia.
Qed.

Lemma parse_number_length (s lit rest : jsstring) :
  parse_number s = Some (lit, rest) ->
  (List.length rest < List.length s)%nat.
Proof.
  unfold parse_number.
  set (p := match s with
            | [] => ([], s)
            | c :: r => if c =? 45 then ([45], r) else ([], s)
            end).
  assert (Hp : (List.length (snd p) <= List.length s)%nat).
  { subst p. destruct s as [|c r]; [simpl; lia|].
    destruct (c =? 45); simpl; lia. }
  destruct p as [sign s1]. simpl in Hp.
  destruct (parse_int_part s1) as [[i s2]|] eqn:Ei; [|discriminate].
  destruct (parse_fraction s2) as [[f s3]|] eqn:Ef; [|discriminate].
  destruct (parse_exponent s3) as [[e s4]|] eqn:Ee; [|discriminate].
  intros H. injection H as _ <-.
  apply parse_int_part_length in Ei. apply parse_fraction_length in Ef.
  apply parse_exponent_length in Ee. lia.
Qed.

Lemma value_step_consuming
  (elements : jsstring -> option (list value * jsstring))
  (members : jsstring -> option (list (jsstring * value) * jsstring)) :
  consuming elements -> consuming members ->
  consuming (value_step elements members).
Proof.
  intros He Hm s v rest H. unfold value_step in H.
  destruct (skip_ws s) as [|c r] eqn:Es; [discriminate|].
  apply skip_ws_cons in Es.
  destruct (c =? 34).
  { destruct (parse_chars r) as [[str rest']|] eqn:E; [|discriminate].
    injection H as _ <-. apply parse_chars_shorter in E. lia. }
  destruct (c =? 91).
  { destruct (skip_ws r) as [|d r'] eqn:Er; [discriminate|].
    apply skip_ws_cons in Er. destruct (d =? 93).
    - injection H as _ <-. lia.
    - destruct (elements r) as [[vs rest']|] eqn:E; [|discriminate].
      injection H as _ <-. apply He in E. lia. }
  destruct (c =? 123).
  { destruct (skip_ws r) as [|d r'] eqn:Er; [discriminate|].
    apply skip_ws_cons in Er. destruct (d =? 125).
    - injection H as _ <-. lia.
    - destruct (members r) as [[ms rest']|] eqn:E; [|discriminate].
      injection H as _ <-. apply Hm in E. lia. }
  destruct (c =? 116).
  { destruct (strip_prefix (js "true") (c :: r)) as [rest'|] eqn:E;
      [|discriminate].
    injection H as _ <-. apply strip_prefix_length in E. simpl in E. lia. }
  destruct (c =? 102).
  { destruct (strip_prefix (js "false") (c :: r)) as [rest'|] eqn:E;
      [|discriminate].
    injection H as _ <-. apply strip_prefix_length in E. simpl in E. lia. }
  destruct (c =? 110).
  { destruct (strip_prefix (js "null") (c :: r)) as [rest'|] eqn:E;
      [|discriminate].
    injection H as _ <-. apply strip_prefix_length in E. simpl in E. lia. }
  destruct (parse_number (c :: r)) as [[lit rest']|] eqn:E; [|discriminate].
  injection H as _ <-. apply parse_number_length in E. simpl in E. lia.
Qed.

Lemma elements_step_consuming
  (pvalue : jsstring -> option (value * jsstring))
  (elements : jsstring -> option (list value * jsstring)) :
  consuming pvalue -> consuming elements ->
  consuming (elements_step pvalue elements).
Proof.
  intros Hv He s vs rest H. unfold elements_step in H.
  destruct (pvalue s) as [[v r]|] eqn:Ev; [|discriminate].
  apply Hv in Ev.
  destruct (skip_ws r) as [|c r'] eqn:Er; [discriminate|].
  apply skip_ws_cons in Er. destruct (c =? 44).
  - destruct (elements r') as [[vs' rest']|] eqn:E; [|discriminate].
    injection H as _ <-. apply He in E. lia.
  - destruct (c =? 93); [|discriminate]. injection H as _ <-. lia.
Qed.

Lemma members_step_consuming
  (pvalue : jsstring -> option (value * jsstring))
  (members : jsstring -> option (list (jsstring * value) * jsstring)) :
  consuming pvalue -> consuming members ->
  consuming (members_step pvalue members).
Proof.
  intros Hv Hm s ms rest H. unfold members_step in H.
  destruct (skip_ws s) as [|q r0] eqn:Es; [discriminate|].
  apply skip_ws_cons in Es.
  destruct (q =? 34); [|discriminate].
  destruct (parse_chars r0) as [[k r1]|] eqn:Ek; [|discriminate].
  apply parse_chars_shorter in Ek.
  destruct (skip_ws r1) as [|colon r2] eqn:E1; [discriminate|].
  apply skip_ws_cons in E1.
  destruct (colon =? 58); [|discriminate].
  destruct (pvalue r2) as [[v r3]|] eqn:Ev; [|discriminate].
  apply Hv in Ev.
  destruct (skip_ws r3) as [|c r4] eqn:E3; [discriminate|].
  apply skip_ws_cons in E3. destruct (c =? 44).
  - destruct (members r4) as [[ms' rest']|] eqn:E; [|discriminate].
    injection H as _ <-. apply Hm in E. lia.
  - destruct (c =? 125); [|discriminate]. injection H as _ <-. lia.
Qed.

(** Whatever the fuel, what is read is taken from the input. *)
Lemma parse_consuming (f : nat) :
  consuming (parse_value f) /\ consuming (parse_elements f)
  /\ consuming (parse_members f).
Proof.
  induction f as [|f [IHv [IHe IHm]]].
  - repeat split; intros s a rest H; discriminate H.
  - split; [|split]; intros s a rest.
    + rewrite parse_value_S. apply value_step_consuming; assumption.
    + rewrite parse_elements_S. apply elements_step_consuming; assumption.
    + rewrite parse_members_S. apply members_step_consuming; assumption.
Qed.

(** The steps look at the parsers they call on shorter inputs only. *)
Lemma value_step_ext
  (elements elements' : jsstring -> option (list value * jsstring))
  (members members' : jsstring -> option (list (jsstring * value) * jsstring))
  (s : jsstring) :
  (forall r, (List.length r < List.length s)%nat ->
             elements r = elements' r) ->
  (forall r, (List.length r < List.length s)%nat ->
             members r = members' r) ->
  value_step elements members s = value_step elements' members' s.
Proof.
  intros He Hm. unfold value_step.
  destruct (skip_ws s) as [|c r] eqn:Es; [reflexivity|].
  apply skip_ws_cons in Es.
  rewrite (He r Es), (Hm r Es). reflexivity.
Qed.

Lemma elements_step_ext
  (pvalue pvalue' : jsstring -> option (value * jsstring))
  (elements elements' : jsstring -> option (list value * jsstring))
  (s : jsstring) :
  consuming pvalue ->
  pvalue s = pvalue' s ->
  (forall r, (List.length r + 2 <= List.length s)%nat ->
             elements r = elements' r) ->
  elements_step pvalue elements s = elements_step pvalue' elements' s.
Proof.
  intros Hc Hv He. unfold elements_step. rewrite <- Hv.
  destruct (pvalue s) as [[v r]|] eqn:Ev; [|reflexivity].
  apply Hc in Ev.
  destruct (skip_ws r) as [|c r'] eqn:Er; [reflexivity|].
  apply skip_ws_cons in Er.
  rewrite (He r') by lia. reflexivity.
Qed.

Lemma members_step_ext
  (pvalue pvalue' : jsstring -> option (value * jsstring))
  (members members' : jsstring -> option (list (jsstring * value) * jsstring))
  (s : jsstring) :
  consuming pvalue ->
  (forall r, (List.length r < List.length s)%nat -> pvalue r = pvalue' r) ->
  (forall r, (List.length r + 2 <= List.length s)%nat ->
             members r = members' r) ->
  members_step pvalue members s = members_step pvalue' members' s.
Proof.
  intros Hc Hv Hm. unfold members_step.
  destruct (skip_ws s) as [|q r0] eqn:Es; [reflexivity|].
  apply skip_ws_cons in Es.
  destruct (q =? 34); [|reflexivity].
  destruct (parse_chars r0) as [[k r1]|] eqn:Ek; [|reflexivity].
  apply parse_chars_shorter in Ek.
  destruct (skip_ws r1) as [|colon r2] eqn:E1; [reflexivity|].
  apply skip_ws_cons in E1.
  destruct (colon =? 58); [|reflexivity].
  rewrite <- (Hv r2) by lia.
  destruct (pvalue r2) as [[v r3]|] eqn:Ev; [|reflexivity].
  apply Hc in Ev.
  destruct (skip_ws r3) as [|c r4] eqn:E3; [reflexivity|].
  apply skip_ws_cons in E3.
  rewrite (Hm r4) by lia. reflexivity.
Qed.

(** One more unit of fuel changes nothing once the fuel exceeds twice the
    length of the input. *)
Lemma parse_fuel_step (f : nat) :
  (forall s, (2 * List.length s + 1 <= f)%nat ->
             parse_value (S f) s = parse_value f s) /\
  (forall s, (2 * List.length s + 2 <= f)%nat ->
             parse_elements (S f) s = parse_elements f s) /\
  (forall s, (2 * List.length s + 2 <= f)%nat ->
             parse_members (S f) s = parse_members f s).
Proof.
  induction f as [|f [IHv [IHe IHm]]].
  - repeat split; intros s H; lia.
  - destruct (parse_consuming f) as [Cv _].
    destruct (parse_consuming (S f)) as [Cv' _].
    split; [|split]; intros s H.
    + rewrite (parse_value_S (S f)), (parse_value_S f).
      apply value_step_ext; intros r Hr; [apply IHe | apply IHm]; lia.
    + rewrite (parse_elements_S (S f)), (parse_elements_S f).
      apply elements_step_ext; [exact Cv'|apply IHv; lia|].
      intros r Hr. apply IHe. lia.
    + rewrite (parse_members_S (S f)), (parse_members_S f).
      apply members_step_ext; [exact Cv'| |].
      * intros r Hr. apply IHv. lia.
      * intros r Hr. apply IHm. lia.
Qed.

(** [JSON_parse] runs on enough fuel: no more fuel reads another value,
    and none turns its [SyntaxError] into a value. *)
Lemma parse_value_fuel (s : jsstring) (f : nat) :
  (2 * List.length s + 1 <= f)%nat ->
  parse_value f s = parse_value (2 * List.length s + 1) s.
Proof.
  intros H. induction H as [|f H IH]; [reflexivity|].
  rewrite <- IH. apply (proj1 (parse_fuel_step f)). exact H.
Qed.

End ParserFacts.

(** ** The component *)

Module AppFacts.
Import JsStringFacts JsonFacts.
Import App.

Lemma wf_task_newTask (s : jsstring) (now : Z) :
  wf_string s -> TaskStore.wf_task (TaskStore.newTask s now).
Proof.
  intros H. split; simpl.
  - apply wf_toString.
  - apply wf_trim, H.
Qed.

(** The strings of a produced list are JavaScript strings. *)
Lemma produced_wf (l : list Task) :
  TaskStore.produced l -> Forall TaskStore.wf_task l.
Proof.
  induction 1 as [|m l Hm Hl IH]; [constructor|].
  destruct m as [s now|k|k]; simpl.
  - unfold TaskStore.addTask. destruct (trim s); [assumption|].
    constructor; [apply wf_task_newTask, Hm | assumption].
  - unfold TaskStore.toggleTask. apply Forall_map.
    revert IH. apply Forall_impl. intros t Ht.
    destruct (JsString.eqb (id t) k); assumption.
  - unfold TaskStore.deleteTask. rewrite Forall_forall in *.
    intros t Ht. apply filter_In in Ht. apply IH, Ht.
Qed.

Lemma stringify_tasks_truthy (l : list Task) :
  exists r, stringify_tasks l = 91 :: r.
Proof. eexists. reflexivity. Qed.

Lemma saveTasks_begin_tasks (l : list Task) (st : state) :
  saveTasks_begin (value_of_tasks l) st
  = Some (issue (setItem STORAGE_KEY (stringify_tasks l)) st).
Proof.
  unfold saveTasks_begin. rewrite JSON_stringify_tasks. reflexivity.
Qed.

(** On a task list the updaters are the functions of [TaskStore]. *)
Lemma prepend_tasks (t : Task) (l : list Task) :
  prepend (value_of_task t) (value_of_tasks l)
  = Some (value_of_tasks (t :: l)).
Proof. reflexivity. Qed.

Lemma toggle_item_task (k : jsstring) (t : Task) :
  toggle_item k (value_of_task t)
  = Some (value_of_task
            (if JsString.eqb (id t) k then TaskStore.flip t else t)).
Proof.
  unfold toggle_item, value_of_task.
  change (lookup (js "id") _) with (Some (JStr (id t))).
  cbn [is_string]. destruct (JsString.eqb (id t) k); reflexivity.
Qed.

Lemma toggle_updater_tasks (k : jsstring) (l : list Task) :
  toggle_updater k (value_of_tasks l)
  = Some (value_of_tasks (TaskStore.toggleTask k l)).
Proof.
  unfold toggle_updater, value_of_tasks.
  assert (G : map_items (toggle_item k) (map value_of_task l)
              = Some (map value_of_task (TaskStore.toggleTask k l))).
  { induction l as [|t l IH]; [reflexivity|].
    simpl map. cbn [map_items]. rewrite toggle_item_task, IH.
    reflexivity. }
  rewrite G. reflexivity.
Qed.

Lemma delete_updater_tasks (k : jsstring) (l : list Task) :
  delete_updater k (value_of_tasks l)
  = Some (value_of_tasks (TaskStore.deleteTask k l)).
Proof.
  unfold delete_updater, value_of_tasks.
  assert (G : filter_items k (map value_of_task l)
              = Some (map value_of_task (TaskStore.deleteTask k l))).
  { induction l as [|t l IH]; [reflexivity|].
    simpl map. cbn [filter_items]. rewrite IH.
    change (property (value_of_task t) (js "id"))
      with (Some (Some (JStr (id t)))).
    cbn [is_string TaskStore.deleteTask filter].
    destruct (JsString.eqb (id t) k); reflexivity. }
  rewrite G. reflexivity.
Qed.

Lemma updateTasks_tasks (f : value -> option value)
  (g : list Task -> list Task) (l : list Task) (st : state) :
  f (value_of_tasks l) = Some (value_of_tasks (g l)) ->
  tasks st = value_of_tasks l ->
  updateTasks f st = Some (setTasks (value_of_tasks (g l)) st).
Proof.
  intros Hf H. unfold updateTasks. rewrite H, Hf. reflexivity.
Qed.

Lemma commit_setTasks (l : list Task) (st st' : state) :
  tasks st' = value_of_tasks l -> version st' = S (version st) ->
  commit st (Some st')
  = Some (issue (setItem STORAGE_KEY (stringify_tasks l)) st').
Proof.
  intros Ht Hv. unfold commit. rewrite Hv.
  replace (S (version st) =? version st)%nat with false
    by (symmetry; apply Nat.eqb_neq; lia).
  rewrite Ht. apply saveTasks_begin_tasks.
Qed.

(** A mutation that calls [setTasks], from a state that holds the list
    [l]: the state then holds the mutated list and one write of its text
    has been issued, nothing else. *)
Lemma run_effective (m : TaskStore.mutation) (l : list Task) (st : state) :
  tasks st = value_of_tasks l -> effective m = true ->
  exists st',
    run (events_of m) st = Some st' /\
    tasks st' = value_of_tasks (TaskStore.apply m l) /\
    calls st' = calls st
                ++ [setItem STORAGE_KEY
                      (stringify_tasks (TaskStore.apply m l))] /\
    alerts st' = alerts st /\ console st' = console st.
Proof.
  intros Ht He. destruct m as [s now|k|k].
  - cbn [effective] in He.
    destruct (trim s) as [|c r] eqn:E; [discriminate|].
    assert (Ha : TaskStore.apply (TaskStore.add s now) l
                 = TaskStore.newTask s now :: l).
    { cbn [TaskStore.apply]. unfold TaskStore.addTask. rewrite E.
      reflexivity. }
    rewrite Ha.
    assert (Hp : handle (pressAdd now) (setTaskText s st)
                 = Some (issue (setItem STORAGE_KEY
                                  (stringify_tasks
                                     (TaskStore.newTask s now :: l)))
                           (setTaskText []
                              (setTasks
                                 (value_of_tasks
                                    (TaskStore.newTask s now :: l))
                                 (setTaskText s st))))).
    { unfold handle, addTask. cbn [taskText setTaskText]. rewrite E.
      rewrite (updateTasks_tasks _ (cons (TaskStore.newTask s now)) l
                 (setTaskText s st) (prepend_tasks _ l) Ht).
      apply commit_setTasks; reflexivity. }
    eexists. split.
    { cbn [events_of run].
      change (handle (changeText s) st) with (Some (setTaskText s st)).
      cbv beta iota. rewrite Hp. reflexivity. }
    cbn [tasks calls alerts console issue setTaskText setTasks]. auto.
  - assert (Hp : handle (pressToggle k) st
                 = Some (issue (setItem STORAGE_KEY
                                  (stringify_tasks (TaskStore.toggleTask k l)))
                           (setTasks
                              (value_of_tasks (TaskStore.toggleTask k l))
                              st))).
    { unfold handle, toggleTask.
      rewrite (updateTasks_tasks _ _ l st (toggle_updater_tasks k l) Ht).
      apply commit_setTasks; reflexivity. }
    eexists. split.
    { cbn [events_of run]. rewrite Hp. reflexivity. }
    cbn [TaskStore.apply tasks calls alerts console issue setTasks]. auto.
  - assert (Hp : handle (pressDelete k) st
                 = Some (issue (setItem STORAGE_KEY
                                  (stringify_tasks (TaskStore.deleteTask k l)))
                           (setTasks
                              (value_of_tasks (TaskStore.deleteTask k l))
                              st))).
    { unfold handle, deleteTask.
      rewrite (updateTasks_tasks _ _ l st (delete_updater_tasks k l) Ht).
      apply commit_setTasks; reflexivity. }
    eexists. split.
    { cbn [events_of run]. rewrite Hp. reflexivity. }
    cbn [TaskStore.apply tasks calls alerts console issue setTasks]. auto.
Qed.

(** The [add] of a blank text calls neither [setTasks] nor the store. *)
Lemma run_blank (s : jsstring) (now : Z) (st : state) :
  trim s = [] ->
  run (events_of (TaskStore.add s now)) st = Some (setTaskText s st).
Proof.
  intros E. simpl. unfold addTask. simpl. rewrite E. simpl.
  rewrite Nat.eqb_refl. reflexivity.
Qed.

Lemma run_app (evs1 evs2 : list event) (st : state) :
  run (evs1 ++ evs2) st
  = match run evs1 st with
    | Some st' => run evs2 st'
    | None => None
    end.
Proof.
  revert st. induction evs1 as [|ev evs1 IH]; intros st; [reflexivity|].
  simpl. destruct (handle ev st); [apply IH | reflexivity].
Qed.

Lemma writes_app (cs1 cs2 : list call) :
  writes (cs1 ++ cs2) = writes cs1 ++ writes cs2.
Proof.
  induction cs1 as [|[k|k b] cs1 IH]; simpl; [reflexivity|assumption|].
  rewrite IH. reflexivity.
Qed.

Lemma produced_odd_tasks : TaskStore.produced Samples.odd_tasks.
Proof.
  apply (TaskStore.produced_step (TaskStore.delete (js "0"))); [exact I|].
  apply (TaskStore.produced_step (TaskStore.toggle (toString 1700000000000)));
    [exact I|].
  apply (TaskStore.produced_step (TaskStore.add Samples.odd_text 1700000001000)).
  { repeat constructor. }
  apply (TaskStore.produced_step
           (TaskStore.add (js "  Buy milk ") 1700000000000)).
  { apply wf_js. }
  constructor.
Defined.

(** C5. For a list produced by adds, toggles and deletes from the empty
    list, [JSON.parse] of its [JSON.stringify] is the list: the same tasks
    in the same order, each with its three fields under their names, the
    strings as strings and the flag as a boolean. This is the text
    [saveTasks] writes and the value [loadTasks] sets on reading it
    back. *)
Theorem stringify_parse_roundtrip (l : list Task) :
  TaskStore.produced l ->
  JSON_parse (stringify_tasks l) = Some (value_of_tasks l) /\
  tasks_of_value (value_of_tasks l) = Some l /\
  forall st : state,
    saveTasks_begin (value_of_tasks l) st
    = Some (issue (setItem STORAGE_KEY (stringify_tasks l)) st) /\
    loadTasks_resume (fulfilled (Some (stringify_tasks l))) st
    = setTasks (value_of_tasks l) st.
Proof.
  intros H. apply produced_wf in H.
  pose proof (JSON_parse_stringify_tasks l H) as Hp.
  split; [exact Hp|]. split; [apply tasks_of_value_of_tasks|].
  intros st. split; [apply saveTasks_begin_tasks|].
  unfold loadTasks_resume. rewrite Hp.
  destruct (stringify_tasks_truthy l) as [r ->]. reflexivity.
Qed.

Lemma stringify_parse_roundtrip_witness :
  TaskStore.produced Samples.odd_tasks /\
  JSON_parse (stringify_tasks Samples.odd_tasks)
  = Some (value_of_tasks Samples.odd_tasks) /\
  tasks_of_value (value_of_tasks Samples.odd_tasks)
  = Some Samples.odd_tasks.
Proof.
  split; [exact produced_odd_tasks|].
  pose proof (stringify_parse_roundtrip Samples.odd_tasks produced_odd_tasks)
    as [H1 [H2 _]].
  split; assumption.
Defined.

Lemma commit_issue (st st1 : state) :
  commit st (Some st1)
  = Some (if (version st1 =? version st)%nat then st1
          else issue (setItem STORAGE_KEY (JSON_stringify (tasks st1))) st1).
Proof.
  unfold commit, saveTasks_begin.
  destruct (version st1 =? version st)%nat; reflexivity.
Qed.

Lemma commit_same (st st1 : state) :
  version st1 = version st -> commit st (Some st1) = Some st1.
Proof. intros H. rewrite commit_issue, H, Nat.eqb_refl. reflexivity. Qed.

Lemma commit_fresh (st st1 : state) :
  version st1 = S (version st) ->
  commit st (Some st1)
  = Some (issue (setItem STORAGE_KEY (JSON_stringify (tasks st1))) st1).
Proof.
  intros H. rewrite commit_issue, H.
  replace (S (version st) =? version st)%nat with false
    by (symmetry; apply Nat.eqb_neq; lia).
  reflexivity.
Qed.




(** C10. A stored blob that is the empty string is handled as no blob at
    all: [JSON.parse], which would fail on it, is not reached, nothing is
    reported, no write follows and the state, so the empty list of a fresh
    component, is kept. *)
Theorem empty_blob_as_absent (st : state) :
  loadTasks_resume (fulfilled (Some [])) st
  = loadTasks_resume (fulfilled None) st /\
  loadTasks_resume (fulfilled (Some [])) st = st /\
  handle (getItemSettled (fulfilled (Some []))) st = Some st /\
  JSON_parse [] = None /\
  (exists m, mount = Some m /\
             handle (getItemSettled (fulfilled (Some []))) m = Some m /\
             tasks m = JArr [] /\ alerts m = []).
Proof.
  split; [reflexivity|]. split; [reflexivity|]. split.
  { unfold handle, commit. simpl. rewrite Nat.eqb_refl. reflexivity. }
  split; [reflexivity|].
  eexists. split; [reflexivity|]. simpl. auto.
Qed.

Lemma updateTasks_inv (f : value -> option value) (st st1 : state) :
  updateTasks f st = Some st1 ->
  exists v, f (tasks st) = Some v /\ st1 = setTasks v st.
Proof.
  unfold updateTasks. destruct (f (tasks st)) as [v|]; [|discriminate].
  intros H. injection H as <-. exists v. auto.
Qed.

(** What one event does to the storage calls: a press that mutates the
    list and a read that replaces it are followed by one write, of the text
    of what [tasks] then holds; no other event issues a call. *)
Lemma handle_calls (ev : event) (st st' : state) :
  handle ev st = Some st' ->
  calls st' = calls st
              ++ (if Sessions.mutates ev st || Sessions.replaces ev
                  then [setItem STORAGE_KEY (JSON_stringify (tasks st'))]
                  else []).
Proof.
  assert (Hupd : forall f,
            commit st (updateTasks f st) = Some st' ->
            calls st' = calls st
                        ++ [setItem STORAGE_KEY (JSON_stringify (tasks st'))]).
  { intros f. destruct (updateTasks f st) as [st1|] eqn:E; [|discriminate].
    apply updateTasks_inv in E. destruct E as [v [_ ->]].
    rewrite commit_fresh by reflexivity. intros H. injection H as <-.
    reflexivity. }
  destruct ev as [s|now|k|k|r|r]; unfold handle;
    cbn [Sessions.mutates Sessions.replaces orb].
  - intros H. injection H as <-. simpl. rewrite app_nil_r. reflexivity.
  - unfold addTask. destruct (trim (taskText st)) as [|c r].
    + rewrite commit_same by reflexivity. intros H. injection H as <-.
      rewrite app_nil_r. reflexivity.
    + destruct (updateTasks _ st) as [st1|] eqn:E; [|discriminate].
      apply updateTasks_inv in E. destruct E as [v [_ ->]].
      rewrite commit_fresh by reflexivity. intros H. injection H as <-.
      reflexivity.
  - apply Hupd.
  - apply Hupd.
  - destruct r as [[[|c blob]|]|]; cbn [loadTasks_resume];
      try (rewrite commit_same by reflexivity; intros H; injection H as <-;
           rewrite app_nil_r; reflexivity).
    destruct (JSON_parse (c :: blob)) as [v|].
    + rewrite commit_fresh by reflexivity. intros H. injection H as <-.
      reflexivity.
    + rewrite commit_same by reflexivity. intros H. injection H as <-.
      rewrite app_nil_r. reflexivity.
  - intros H. injection H as <-. rewrite app_nil_r. destruct r; reflexivity.
Qed.



(** An event that neither mutates nor replaces the list leaves it as it
    is. *)
Lemma handle_tasks (ev : event) (st st' : state) :
  handle ev st = Some st' ->
  Sessions.mutates ev st || Sessions.replaces ev = false ->
  tasks st' = tasks st.
Proof.
  destruct ev as [s|now|k|k|r|r]; unfold handle;
    cbn [Sessions.mutates Sessions.replaces orb]; try discriminate.
  - intros H _. injection H as <-. reflexivity.
  - unfold addTask. destruct (trim (taskText st)); [|discriminate].
    rewrite commit_same by reflexivity. intros H _. injection H as <-.
    reflexivity.
  - destruct r as [[[|c blob]|]|]; cbn [loadTasks_resume];
      try (rewrite commit_same by reflexivity; intros H _; injection H as <-;
           reflexivity).
    destruct (JSON_parse (c :: blob)) as [v|]; [discriminate|].
    rewrite commit_same by reflexivity. intros H _. injection H as <-.
    reflexivity.
  - intros H _. injection H as <-. destruct r; reflexivity.
Qed.






(** C8. When the write that follows a mutation fails, the saving alert is
    shown, the list stays as the mutation left it, no further storage call
    is issued for it, and the next mutation is carried out and written as
    usual. *)
Theorem failed_write_is_reported
  (st : state) (l : list Task) (m : TaskStore.mutation) :
  tasks st = value_of_tasks l -> effective m = true ->
  exists st1,
    run (events_of m) st = Some st1 /\
    calls st1 = calls st
                ++ [setItem STORAGE_KEY
                      (stringify_tasks (TaskStore.apply m l))] /\
    handle (setItemSettled rejected) st1 = Some (save_catch st1) /\
    alerts (save_catch st1) = alerts st ++ [save_alert] /\
    tasks (save_catch st1) = value_of_tasks (TaskStore.apply m l) /\
    calls (save_catch st1) = calls st1 /\
    forall m' : TaskStore.mutation,
      effective m' = true ->
      exists st2,
        run (events_of m') (save_catch st1) = Some st2 /\
        tasks st2
        = value_of_tasks (TaskStore.apply m' (TaskStore.apply m l)) /\
        calls st2
        = calls st1
          ++ [setItem STORAGE_KEY
                (stringify_tasks
                   (TaskStore.apply m' (TaskStore.apply m l)))].
Proof.
  intros Ht He.
  destruct (run_effective m l st Ht He) as [st1 [Hr [Ht1 [Hc1 [Ha1 _]]]]].
  exists st1. split; [exact Hr|]. split; [exact Hc1|].
  split; [reflexivity|]. split; [simpl; rewrite Ha1; reflexivity|].
  split; [exact Ht1|]. split; [reflexivity|].
  intros m' He'.
  destruct (run_effective m' (TaskStore.apply m l) (save_catch st1) Ht1 He')
    as [st2 [Hr2 [Ht2 [Hc2 _]]]].
  exists st2. split; [exact Hr2|]. split; [exact Ht2|exact Hc2].
Qed.

Lemma failed_write_is_reported_witness :
  tasks init = value_of_tasks [] /\
  effective (TaskStore.add (js "Buy milk") 1700000000000) = true /\
  exists st1,
    run (events_of (TaskStore.add (js "Buy milk") 1700000000000)) init
    = Some st1 /\
    handle (setItemSettled rejected) st1 = Some (save_catch st1) /\
    alerts (save_catch st1) = alerts init ++ [save_alert] /\
    tasks (save_catch st1)
    = value_of_tasks
        (TaskStore.apply (TaskStore.add (js "Buy milk") 1700000000000) []) /\
    calls (save_catch st1) = calls st1.
Proof.
  split; [reflexivity|]. split; [reflexivity|].
  destruct (failed_write_is_reported init []
              (TaskStore.add (js "Buy milk") 1700000000000)
              eq_refl eq_refl)
    as [st1 [H1 [_ [H3 [H4 [H5 [H6 _]]]]]]].
  exists st1. auto.
Defined.

(** The scenario of the specification: two adds, a toggle of the older
    task, a delete of the newer one. *)
Example scenario :
  exists m0 st,
    mount = Some m0 /\
    run [changeText (js "Buy milk"); pressAdd 1700000000000;
         changeText (js "Walk dog"); pressAdd 1700000001000;
         pressToggle (toString 1700000000000);
         pressDelete (toString 1700000001000)] m0 = Some st /\
    tasks st
    = value_of_tasks [mkTask (toString 1700000000000) (js "Buy milk") true] /\
    List.length (writes (calls st)) = 5%nat /\
    alerts st = [].
Proof.
  eexists. eexists. split; [reflexivity|].
  split; [vm_compute; reflexivity|]. vm_compute. auto.
Qed.

End AppFacts.

(** ** The task store: further laws *)

Module TaskStoreLaws.
Import TaskStore JsStringFacts TaskStoreFacts Sessions.

Lemma js_inj (s t : string) : js s = js t -> s = t.
Proof.
  unfold js. intros H.
  rewrite <- (string_of_list_ascii_of_string s),
          <- (string_of_list_ascii_of_string t).
  f_equal. revert H.
  generalize (list_ascii_of_string s) (list_ascii_of_string t).
  induction l as [|a l IH]; intros [|b l']; simpl; try discriminate;
    [reflexivity|].
  intros H. injection H as Hab Hl. f_equal; [|apply IH, Hl].
  rewrite <- (ascii_N_embedding a), <- (ascii_N_embedding b), Hab.
  reflexivity.
Qed.

Lemma to_int_not_nil (z : Z) :
  Z.to_int z <> Decimal.Pos Decimal.Nil /\
  Z.to_int z <> Decimal.Neg Decimal.Nil.
Proof.
  destruct z as [|p|p]; simpl; split; try discriminate;
    intros H; injection H as H;
    apply (DecimalPos.Unsigned.to_uint_nonnil p H).
Qed.

Lemma generateId_eq (a b : Z) : generateId a = generateId b -> a = b.
Proof.
  unfold generateId, toString. intros H. apply js_inj in H.
  apply DecimalZ.to_int_inj.
  destruct (to_int_not_nil a) as [Ha1 Ha2].
  destruct (to_int_not_nil b) as [Hb1 Hb2].
  pose proof (NilZero.isi _ Ha1 Ha2) as Ia.
  pose proof (NilZero.isi _ Hb1 Hb2) as Ib.
  rewrite H in Ia. rewrite Ia in Ib. injection Ib as ->. reflexivity.
Qed.

(** X1. Two different readings of the clock give two different ids. *)
Theorem generateId_distinct (a b : Z) :
  a <> b -> generateId a <> generateId b.
Proof. intros H E. apply H, generateId_eq, E. Qed.

Lemma generateId_distinct_witness :
  (1700000000000 <> 1700000000001)%Z /\
  generateId 1700000000000 <> generateId 1700000000001.
Proof.
  assert (H : (1700000000000 <> 1700000000001)%Z) by discriminate.
  split; [exact H|].
  apply (generateId_distinct 1700000000000 1700000000001 H).
Defined.

Lemma in_ids_deleteTask (k j : jsstring) (l : list Task) :
  In j (ids (deleteTask k l)) -> In j (ids l).
Proof.
  unfold ids, deleteTask. rewrite !in_map_iff.
  intros [t [Ht Hin]]. apply filter_In in Hin. exists t. tauto.
Qed.

(** X2. Each mutation keeps the ids pairwise distinct, an [add] provided the
    clock reads a value whose text is no id of the list. *)
Theorem apply_keeps_ids_distinct (m : mutation) (l : list Task) :
  NoDup (ids l) ->
  (forall s now, m = add s now -> ~ In (generateId now) (ids l)) ->
  NoDup (ids (apply m l)).
Proof.
  intros Hd Hfresh. destruct m as [s now|k|k]; simpl.
  - apply NoDup_ids_addTask; [apply (Hfresh s now eq_refl) | exact Hd].
  - apply NoDup_ids_toggleTask, Hd.
  - apply NoDup_ids_deleteTask, Hd.
Qed.

Lemma apply_keeps_ids_distinct_witness :
  NoDup (ids Samples.two_tasks) /\
  (forall s now, add (js "Call mum") 1700000002000 = add s now ->
                 ~ In (generateId now) (ids Samples.two_tasks)) /\
  NoDup (ids (apply (add (js "Call mum") 1700000002000) Samples.two_tasks)).
Proof.
  assert (Hd : NoDup (ids Samples.two_tasks)).
  { vm_compute. repeat constructor; simpl; intuition discriminate. }
  assert (Hf : forall s now, add (js "Call mum") 1700000002000 = add s now ->
                 ~ In (generateId now) (ids Samples.two_tasks)).
  { intros s now E. injection E as _ <-. vm_compute. intuition discriminate. }
  split; [exact Hd|]. split; [exact Hf|].
  apply (apply_keeps_ids_distinct (add (js "Call mum") 1700000002000)
           Samples.two_tasks Hd Hf).
Defined.

Lemma apply_all_distinct (ms : list mutation) :
  forall l : list Task,
    NoDup (ids l) -> NoDup (clocks ms) ->
    (forall now, In now (clocks ms) -> ~ In (generateId now) (ids l)) ->
    NoDup (ids (apply_all ms l)).
Proof.
  induction ms as [|m ms IH]; intros l Hd Hc Hf; [exact Hd|].
  change (apply_all (m :: ms) l) with (apply_all ms (apply m l)).
  destruct m as [s now|k|k]; simpl in Hc, Hf |- *.
  - unfold addTask. destruct (trim s) as [|c r] eqn:E.
    + apply IH; assumption.
    + inversion Hc as [|? ? Hn Hc']; subst. apply IH; [|exact Hc'|].
      * simpl. constructor; [apply Hf; left; reflexivity | exact Hd].
      * intros now' Hin [Heq|Hin'].
        -- apply generateId_eq in Heq. subst. contradiction.
        -- apply (Hf now'); [right; exact Hin | exact Hin'].
  - apply IH; [apply NoDup_ids_toggleTask, Hd | exact Hc |].
    intros now Hin. rewrite ids_toggleTask. apply Hf, Hin.
  - apply IH; [apply NoDup_ids_deleteTask, Hd | exact Hc |].
    intros now Hin H. apply in_ids_deleteTask in H. apply (Hf now Hin H).
Qed.

(** X3. When no two adds that create a task read the same clock value, the
    ids of the list are pairwise distinct after any sequence of adds,
    toggles and deletes from the empty list. *)
Theorem distinct_clocks_distinct_ids (ms : list mutation) :
  NoDup (clocks ms) -> NoDup (ids (apply_all ms [])).
Proof.
  intros H. apply apply_all_distinct; [constructor | exact H |].
  intros now _ [].
Qed.

Lemma distinct_clocks_distinct_ids_witness :
  NoDup (clocks [add (js "Buy milk") 1700000000000; add (js "  ") 1700000000000;
                 toggle (toString 1700000000000);
                 add (js "Walk dog") 1700000000001]) /\
  NoDup (ids (apply_all
                [add (js "Buy milk") 1700000000000; add (js "  ") 1700000000000;
                 toggle (toString 1700000000000);
                 add (js "Walk dog") 1700000000001] [])).
Proof.
  assert (H : NoDup (clocks
                [add (js "Buy milk") 1700000000000; add (js "  ") 1700000000000;
                 toggle (toString 1700000000000);
                 add (js "Walk dog") 1700000000001])).
  { vm_compute. repeat constructor; simpl; intuition discriminate. }
  split; [exact H|].
  apply (distinct_clocks_distinct_ids _ H).
Defined.

(** *** The text of a task *)

Lemma trimStart_idem (s : jsstring) : trimStart (trimStart s) = trimStart s.
Proof.
  induction s as [|c s IH]; [reflexivity|]. simpl.
  destruct (is_trim_space c) eqn:E; [exact IH|]. simpl. rewrite E.
  reflexivity.
Qed.

Lemma trimStart_snoc (s : jsstring) (c : code_unit) :
  is_trim_space c = false -> trimStart (s ++ [c]) = trimStart s ++ [c].
Proof.
  intros Hc. induction s as [|d s IH]; simpl; [rewrite Hc; reflexivity|].
  destruct (is_trim_space d); [exact IH | reflexivity].
Qed.

Lemma trimStart_head (s : jsstring) :
  match trimStart s with
  | [] => True
  | c :: _ => is_trim_space c = false
  end.
Proof.
  induction s as [|c s IH]; simpl; [exact I|].
  destruct (is_trim_space c) eqn:E; [exact IH | exact E].
Qed.

(** What [trim] returns has no white space at either end. *)
Lemma trim_ends (s : jsstring) :
  trimStart (trim s) = trim s /\ trimEnd (trim s) = trim s.
Proof.
  unfold trim, trimEnd. pose proof (trimStart_head s) as Hh.
  destruct (trimStart s) as [|c a]; [split; reflexivity|].
  simpl rev. rewrite (trimStart_snoc _ c Hh), !rev_app_distr. simpl.
  rewrite Hh. split; [reflexivity|].
  rewrite rev_involutive, (trimStart_snoc _ c Hh), trimStart_idem,
    rev_app_distr. reflexivity.
Qed.

Lemma trim_idem (s : jsstring) : trim (trim s) = trim s.
Proof.
  destruct (trim_ends s) as [H1 H2]. unfold trim at 1. rewrite H1. exact H2.
Qed.

(** X4. Every task of a list produced from the empty one carries a text that
    is not empty and has no white space at either end, and an id that is
    the decimal text of a clock reading. *)
Theorem produced_texts_trimmed (l : list Task) :
  produced l ->
  Forall (fun t => text t <> [] /\ trim (text t) = text t /\
                   exists now, id t = generateId now) l.
Proof.
  induction 1 as [|m l Hm Hl IH]; [constructor|].
  destruct m as [s now|k|k]; simpl.
  - unfold addTask. destruct (trim s) as [|c r] eqn:E; [exact IH|].
    constructor; [|exact IH]. simpl. rewrite E.
    split; [discriminate|]. split; [rewrite <- E; apply trim_idem|].
    exists now. reflexivity.
  - unfold toggleTask. apply Forall_map. revert IH. apply Forall_impl.
    intros t Ht. destruct (JsString.eqb (id t) k); exact Ht.
  - unfold deleteTask. rewrite Forall_forall in *.
    intros t Ht. apply filter_In in Ht. apply IH, Ht.
Qed.

Lemma produced_texts_trimmed_witness :
  produced Samples.two_tasks /\
  Forall (fun t => text t <> [] /\ trim (text t) = text t /\
                   exists now, id t = generateId now) Samples.two_tasks.
Proof.
  assert (H : produced Samples.two_tasks).
  { apply (produced_step (toggle (toString 1700000000000))); [exact I|].
    apply (produced_step (add (js "Walk dog") 1700000001000));
      [apply wf_js|].
    apply (produced_step (add (js "  Buy milk ") 1700000000000));
      [apply wf_js|].
    constructor. }
  split; [exact H|]. apply (produced_texts_trimmed _ H).
Defined.

(** *** How the updaters compose *)

Lemma eqb_flip (t : Task) (k : jsstring) :
  JsString.eqb (id (flip t)) k = JsString.eqb (id t) k.
Proof. reflexivity. Qed.

(** X5. Toggles commute with each other and with deletes, deletes commute and
    are idempotent, and deleting an id undoes nothing a toggle of that id
    did before: the toggle is absorbed. *)
Theorem updaters_compose (j k : jsstring) (l : list Task) :
  toggleTask j (toggleTask k l) = toggleTask k (toggleTask j l) /\
  deleteTask j (deleteTask k l) = deleteTask k (deleteTask j l) /\
  deleteTask k (deleteTask k l) = deleteTask k l /\
  deleteTask j (toggleTask k l) = toggleTask k (deleteTask j l) /\
  deleteTask k (toggleTask k l) = deleteTask k l.
Proof.
  repeat split.
  - unfold toggleTask. rewrite !map_map. apply map_ext. intros t.
    destruct (JsString.eqb (id t) k) eqn:Ek;
      destruct (JsString.eqb (id t) j) eqn:Ej;
      rewrite ?eqb_flip, ?Ek, ?Ej; reflexivity.
  - unfold deleteTask. induction l as [|t l IH]; [reflexivity|]. simpl.
    destruct (JsString.eqb (id t) k) eqn:Ek;
      destruct (JsString.eqb (id t) j) eqn:Ej; simpl;
      rewrite ?Ek, ?Ej; simpl; rewrite ?IH; reflexivity.
  - unfold deleteTask. induction l as [|t l IH]; [reflexivity|]. simpl.
    destruct (JsString.eqb (id t) k) eqn:Ek; simpl;
      rewrite ?Ek; simpl; rewrite ?IH; reflexivity.
  - unfold deleteTask, toggleTask. induction l as [|t l IH]; [reflexivity|].
    simpl. destruct (JsString.eqb (id t) k) eqn:Ek;
      destruct (JsString.eqb (id t) j) eqn:Ej; simpl;
      rewrite ?eqb_flip, ?Ek, ?Ej; simpl; rewrite ?Ek, ?IH; reflexivity.
  - unfold deleteTask, toggleTask. induction l as [|t l IH]; [reflexivity|].
    simpl. destruct (JsString.eqb (id t) k) eqn:Ek; simpl;
      rewrite ?eqb_flip, ?Ek; simpl; rewrite ?IH; reflexivity.
Qed.

(** X6. A toggle or a delete of another id commutes with an add. *)
Theorem add_commutes (s k : jsstring) (now : Z) (l : list Task) :
  generateId now <> k ->
  toggleTask k (addTask s now l) = addTask s now (toggleTask k l) /\
  deleteTask k (addTask s now l) = addTask s now (deleteTask k l).
Proof.
  intros H. apply eqb_neq in H. unfold addTask.
  destruct (trim s); [split; reflexivity|].
  simpl. rewrite H. split; reflexivity.
Qed.

Lemma add_commutes_witness :
  generateId 1700000002000 <> toString 1700000000000 /\
  toggleTask (toString 1700000000000)
    (addTask (js "Call mum") 1700000002000 Samples.two_tasks)
  = addTask (js "Call mum") 1700000002000
      (toggleTask (toString 1700000000000) Samples.two_tasks) /\
  deleteTask (toString 1700000000000)
    (addTask (js "Call mum") 1700000002000 Samples.two_tasks)
  = addTask (js "Call mum") 1700000002000
      (deleteTask (toString 1700000000000) Samples.two_tasks).
Proof.
  assert (H : generateId 1700000002000 <> toString 1700000000000)
    by (vm_compute; discriminate).
  split; [exact H|].
  apply (add_commutes (js "Call mum") (toString 1700000000000)
           1700000002000 Samples.two_tasks H).
Defined.

(** X7. No mutation touches the id or the text of a task that was in the
    list: a task of the new list is the one [add] created, or carries the
    id and the text of a task of the old list; toggles keep every id and
    text in place. *)
Theorem ids_and_texts_kept (m : mutation) (l : list Task) :
  (forall t', In t' (apply m l) ->
     (exists s now, m = add s now /\ t' = newTask s now) \/
     (exists t, In t l /\ id t' = id t /\ text t' = text t)) /\
  (forall k, map id (toggleTask k l) = map id l /\
             map text (toggleTask k l) = map text l).
Proof.
  split.
  - intros t' Hin. destruct m as [s now|k|k]; simpl in Hin.
    + unfold addTask in Hin. destruct (trim s).
      * right. exists t'. auto.
      * destruct Hin as [<-|Hin]; [left; exists s, now; auto|].
        right. exists t'. auto.
    + right. unfold toggleTask in Hin. apply in_map_iff in Hin.
      destruct Hin as [t [Ht Hin]]. exists t. split; [exact Hin|].
      destruct (JsString.eqb (id t) k); subst; auto.
    + right. unfold deleteTask in Hin. apply filter_In in Hin.
      exists t'. tauto.
  - intros k. unfold toggleTask. rewrite !map_map.
    split; apply map_ext; intros t; destruct (JsString.eqb (id t) k);
      reflexivity.
Qed.

Lemma ids_and_texts_kept_witness :
  In (mkTask (toString 1700000000000) (js "Buy milk") false)
     (apply (toggle (toString 1700000000000)) Samples.two_tasks) /\
  ((exists s now, toggle (toString 1700000000000) = add s now /\
                  mkTask (toString 1700000000000) (js "Buy milk") false
                  = newTask s now) \/
   (exists t, In t Samples.two_tasks /\
              id (mkTask (toString 1700000000000) (js "Buy milk") false) = id t /\
              text (mkTask (toString 1700000000000) (js "Buy milk") false)
              = text t)).
Proof.
  assert (H : In (mkTask (toString 1700000000000) (js "Buy milk") false)
     (apply (toggle (toString 1700000000000)) Samples.two_tasks)).
  { vm_compute. right. left. reflexivity. }
  split; [exact H|].
  apply (proj1 (ids_and_texts_kept (toggle (toString 1700000000000))
                  Samples.two_tasks) _ H).
Defined.

End TaskStoreLaws.

(** ** The component over a whole session *)

Module SessionFacts.
Import JsStringFacts JsonFacts AppFacts.
Import App Sessions.

Lemma last_write_snoc (cs : list call) (k b : jsstring) :
  last_write (cs ++ [setItem k b]) = Some b.
Proof.
  unfold last_write. rewrite writes_app. simpl. rewrite rev_app_distr.
  reflexivity.
Qed.

(** One event keeps the last write in step with the value held. *)
Lemma handle_sync (ev : event) (st st' : state) :
  handle ev st = Some st' ->
  last_write (calls st) = Some (JSON_stringify (tasks st)) ->
  last_write (calls st') = Some (JSON_stringify (tasks st')).
Proof.
  intros H Hw. pose proof (handle_calls _ _ _ H) as Hc.
  destruct (mutates ev st || replaces ev) eqn:E.
  - rewrite Hc. apply last_write_snoc.
  - rewrite Hc, app_nil_r, (handle_tasks _ _ _ H E). exact Hw.
Qed.

Lemma run_sync (evs : list event) :
  forall st st' : state,
    last_write (calls st) = Some (JSON_stringify (tasks st)) ->
    run evs st = Some st' ->
    last_write (calls st') = Some (JSON_stringify (tasks st')).
Proof.
  induction evs as [|ev evs IH]; intros st st' Hw; simpl.
  - intros H. injection H as <-. exact Hw.
  - destruct (handle ev st) as [st1|] eqn:E; [|discriminate].
    apply IH. apply (handle_sync _ _ _ E Hw).
Qed.







Lemma run_to_crash_calls (evs : list event) :
  forall st : state,
    exists blobs,
      calls (run_to_crash evs st) = calls st ++ map (setItem STORAGE_KEY) blobs /\
      (List.length blobs <= List.length evs)%nat.
Proof.
  induction evs as [|ev evs IH]; intros st; simpl.
  - exists []. simpl. rewrite app_nil_r. auto.
  - destruct (handle ev st) as [st1|] eqn:E.
    + destruct (IH st1) as [blobs [Hc Hl]].
      apply handle_calls in E.
      destruct (mutates ev st || replaces ev).
      * exists (JSON_stringify (tasks st1) :: blobs). simpl.
        split; [|lia]. rewrite Hc, E, <- app_assoc. reflexivity.
      * exists blobs. rewrite app_nil_r in E. split; [congruence | lia].
    + exists []. simpl. rewrite app_nil_r. split; [reflexivity | lia].
Qed.

(** X9. The storage calls of a session, a throwing updater or not: the read
    issued on mount, once, then writes only, all under the one key, the
    first of them the write of the empty list issued on mount, and no more
    after it than events. Each event adds no call, or one write under the
    key. *)
Theorem one_read_then_writes :
  (forall evs : list event,
     exists blobs,
       calls (run_to_crash evs mounted)
       = getItem STORAGE_KEY
         :: setItem STORAGE_KEY (stringify_tasks [])
         :: map (setItem STORAGE_KEY) blobs /\
       (List.length blobs <= List.length evs)%nat) /\
  (forall (ev : event) (st : state),
     calls (run_to_crash [ev] st) = calls st \/
     exists b,
       calls (run_to_crash [ev] st) = calls st ++ [setItem STORAGE_KEY b]).
Proof.
  split.
  - intros evs. destruct (run_to_crash_calls evs mounted) as [blobs [Hc Hl]].
    exists blobs. split; [exact Hc | exact Hl].
  - intros ev st. cbn [run_to_crash].
    destruct (handle ev st) as [st'|] eqn:H; [|left; reflexivity].
    apply handle_calls in H.
    destruct (mutates ev st || replaces ev).
    + right. eexists. exact H.
    + left. rewrite app_nil_r in H. exact H.
Qed.

Lemma one_read_then_writes_witness :
  (session [pressToggle (js "7");
            getItemSettled (fulfilled (Some (js "null")));
            pressDelete (js "7")] = None /\
   run_to_crash [pressToggle (js "7");
                 getItemSettled (fulfilled (Some (js "null")));
                 pressDelete (js "7")] mounted
   = mkState JNull [] 2 [] []
       [getItem STORAGE_KEY; setItem STORAGE_KEY (js "[]");
        setItem STORAGE_KEY (js "[]"); setItem STORAGE_KEY (js "null")]) /\
  (exists blobs,
     calls (run_to_crash [pressToggle (js "7");
                          getItemSettled (fulfilled (Some (js "null")));
                          pressDelete (js "7")] mounted)
     = getItem STORAGE_KEY
       :: setItem STORAGE_KEY (stringify_tasks [])
       :: map (setItem STORAGE_KEY) blobs /\
     (List.length blobs <= 3)%nat) /\
  (calls (run_to_crash [pressToggle (js "7")] mounted) = calls mounted \/
   exists b,
     calls (run_to_crash [pressToggle (js "7")] mounted)
     = calls mounted ++ [setItem STORAGE_KEY b]).
Proof.
  split; [split; vm_compute; reflexivity|].
  split.
  - apply (proj1 one_read_then_writes
             [pressToggle (js "7");
              getItemSettled (fulfilled (Some (js "null")));
              pressDelete (js "7")]).
  - apply (proj2 one_read_then_writes (pressToggle (js "7")) mounted).
Defined.

Lemma commit_alerts (st st1 st' : state) :
  commit st (Some st1) = Some st' ->
  alerts st' = alerts st1 /\ console st' = console st1.
Proof.
  unfold commit. destruct (version st1 =? version st)%nat.
  - intros H. injection H as <-. auto.
  - unfold saveTasks_begin. intros H. injection H as <-. auto.
Qed.

Lemma updateTasks_alerts (f : value -> option value) (st st1 : state) :
  updateTasks f st = Some st1 ->
  alerts st1 = alerts st /\ console st1 = console st.
Proof.
  intros H. apply updateTasks_inv in H. destruct H as [v [_ ->]]. auto.
Qed.

(** What one event adds to the alerts and to the console: nothing, or,
    when it is the settlement of a storage call, the alert of that call and
    its line. *)
Lemma handle_reports (ev : event) (st st' : state) :
  handle ev st = Some st' ->
  (alerts st' = alerts st /\ console st' = console st) \/
  ((exists r, ev = getItemSettled r) /\
   alerts st' = alerts st ++ [load_alert] /\
   console st' = console st ++ ["Erro ao carregar tarefas:"%string]) \/
  (ev = setItemSettled rejected /\
   alerts st' = alerts st ++ [save_alert] /\
   console st' = console st ++ ["Erro ao salvar tarefas:"%string]).
Proof.
  assert (Hupd : forall f,
            commit st (updateTasks f st) = Some st' ->
            alerts st' = alerts st /\ console st' = console st).
  { intros f. destruct (updateTasks f st) as [st1|] eqn:E; [|discriminate].
    apply updateTasks_alerts in E. intros H. apply commit_alerts in H.
    destruct H as [-> ->]. exact E. }
  destruct ev as [s|now|k|k|r|r]; unfold handle.
  - intros H. injection H as <-. left. auto.
  - unfold addTask. destruct (trim (taskText st)).
    + intros H. apply commit_alerts in H. left. exact H.
    + destruct (updateTasks _ st) as [st1|] eqn:E; [|discriminate].
      apply updateTasks_alerts in E. intros H. apply commit_alerts in H.
      destruct H as [-> ->]. left. exact E.
  - intros H. left. apply (Hupd _ H).
  - intros H. left. apply (Hupd _ H).
  - intros H. apply commit_alerts in H. destruct H as [Ha Hc].
    destruct r as [[[|c blob]|]|]; simpl loadTasks_resume in Ha, Hc.
    + left. auto.
    + destruct (JSON_parse (c :: blob)).
      * left. auto.
      * right. left. split; [eexists; reflexivity | auto].
    + left. auto.
    + right. left. split; [eexists; reflexivity | auto].
  - intros H. injection H as <-. destruct r as [u|].
    + left. auto.
    + right. right. auto.
Qed.

Lemma handle_alerts (ev : event) (st st' : state) :
  handle ev st = Some st' ->
  exists new,
    alerts st' = alerts st ++ new /\
    (List.length (console st')
     = List.length (console st) + List.length new)%nat /\
    Forall (fun a => a = load_alert \/ a = save_alert) new /\
    (List.length new <= if is_settlement ev then 1 else 0)%nat.
Proof.
  intros H. apply handle_reports in H.
  destruct H as [[Ha Hc]|[[[r ->] [Ha Hc]]|[-> [Ha Hc]]]].
  - exists []. rewrite Ha, Hc, app_nil_r. simpl.
    repeat split; auto; lia.
  - exists [load_alert]. rewrite Ha, Hc, length_app. simpl.
    repeat split; auto.
  - exists [save_alert]. rewrite Ha, Hc, length_app. simpl.
    repeat split; auto.
Qed.

Lemma run_alerts (evs : list event) :
  forall st st' : state,
    run evs st = Some st' ->
    exists new,
      alerts st' = alerts st ++ new /\
      (List.length (console st')
       = List.length (console st) + List.length new)%nat /\
      Forall (fun a => a = load_alert \/ a = save_alert) new /\
      (List.length new <= List.length (filter is_settlement evs))%nat.
Proof.
  induction evs as [|ev evs IH]; intros st st'; simpl.
  - intros H. injection H as <-. exists []. rewrite app_nil_r. simpl.
    repeat split; auto.
  - destruct (handle ev st) as [st1|] eqn:E; [|discriminate].
    intros H. apply IH in H. destruct H as [new2 [Ha2 [Hc2 [Hf2 Hl2]]]].
    apply handle_alerts in E. destruct E as [new1 [Ha1 [Hc1 [Hf1 Hl1]]]].
    exists (new1 ++ new2). rewrite Ha2, Ha1, <- app_assoc, length_app.
    split; [reflexivity|]. split; [lia|]. split; [apply Forall_app; auto|].
    destruct (is_settlement ev); simpl; lia.
Qed.

Lemma run_to_crash_alerts (evs : list event) :
  forall st : state,
    exists new,
      alerts (run_to_crash evs st) = alerts st ++ new /\
      (List.length (console (run_to_crash evs st))
       = List.length (console st) + List.length new)%nat /\
      Forall (fun a => a = load_alert \/ a = save_alert) new /\
      (List.length new <= List.length (filter is_settlement evs))%nat.
Proof.
  induction evs as [|ev evs IH]; intros st; simpl.
  - exists []. rewrite app_nil_r. simpl. repeat split; auto.
  - destruct (handle ev st) as [st1|] eqn:E.
    + destruct (IH st1) as [new2 [Ha2 [Hc2 [Hf2 Hl2]]]].
      apply handle_alerts in E. destruct E as [new1 [Ha1 [Hc1 [Hf1 Hl1]]]].
      exists (new1 ++ new2). rewrite Ha2, Ha1, <- app_assoc, length_app.
      split; [reflexivity|]. split; [lia|]. split; [apply Forall_app; auto|].
      destruct (is_settlement ev); simpl; lia.
    + exists []. rewrite app_nil_r. simpl. repeat split; auto. lia.
Qed.

(** X10. The alerts of a session, a throwing updater or not: only the
    loading and the saving alert are ever shown, each with one line on the
    console, and no more of them than storage calls have settled. What the
    user does (typing, adding, toggling, deleting) shows none and logs
    nothing; the settlement of a read shows nothing or the loading alert,
    the settlement of a write nothing or, when it is rejected, the saving
    alert. *)
Theorem alerts_only_on_settlement :
  (forall evs : list event,
     Forall (fun a => a = load_alert \/ a = save_alert)
       (alerts (run_to_crash evs mounted)) /\
     List.length (console (run_to_crash evs mounted))
     = List.length (alerts (run_to_crash evs mounted)) /\
     (List.length (alerts (run_to_crash evs mounted))
      <= List.length (filter is_settlement evs))%nat) /\
  (forall (ev : event) (st : state),
     is_settlement ev = false ->
     alerts (run_to_crash [ev] st) = alerts st /\
     console (run_to_crash [ev] st) = console st) /\
  (forall (ev : event) (st : state),
     (alerts (run_to_crash [ev] st) = alerts st /\
      console (run_to_crash [ev] st) = console st) \/
     ((exists r, ev = getItemSettled r) /\
      alerts (run_to_crash [ev] st) = alerts st ++ [load_alert] /\
      console (run_to_crash [ev] st)
      = console st ++ ["Erro ao carregar tarefas:"%string]) \/
     (ev = setItemSettled rejected /\
      alerts (run_to_crash [ev] st) = alerts st ++ [save_alert] /\
      console (run_to_crash [ev] st)
      = console st ++ ["Erro ao salvar tarefas:"%string])).
Proof.
  assert (Hone : forall (ev : event) (st : state),
     (alerts (run_to_crash [ev] st) = alerts st /\
      console (run_to_crash [ev] st) = console st) \/
     ((exists r, ev = getItemSettled r) /\
      alerts (run_to_crash [ev] st) = alerts st ++ [load_alert] /\
      console (run_to_crash [ev] st)
      = console st ++ ["Erro ao carregar tarefas:"%string]) \/
     (ev = setItemSettled rejected /\
      alerts (run_to_crash [ev] st) = alerts st ++ [save_alert] /\
      console (run_to_crash [ev] st)
      = console st ++ ["Erro ao salvar tarefas:"%string])).
  { intros ev st. cbn [run_to_crash].
    destruct (handle ev st) as [st'|] eqn:H; [|left; auto].
    apply (handle_reports _ _ _ H). }
  split; [|split].
  - intros evs.
    destruct (run_to_crash_alerts evs mounted) as [new [Ha [Hc [Hf Hl]]]].
    simpl in Ha, Hc. rewrite Ha, Hc. auto.
  - intros ev st Hs.
    destruct (Hone ev st) as [H|[[[r ->] _]|[-> _]]];
      [exact H | |]; discriminate.
  - exact Hone.
Qed.

Lemma alerts_only_on_settlement_witness :
  is_settlement (pressDelete (js "7")) = false /\
  (alerts (run_to_crash [pressDelete (js "7")] (load_catch mounted))
   = alerts (load_catch mounted) /\
   console (run_to_crash [pressDelete (js "7")] (load_catch mounted))
   = console (load_catch mounted)) /\
  run_to_crash [getItemSettled (fulfilled (Some Samples.corrupt));
                pressDelete (js "7"); setItemSettled rejected] mounted
  = mkState (JArr []) [] 1 [load_alert; save_alert]
      ["Erro ao carregar tarefas:"%string; "Erro ao salvar tarefas:"%string]
      [getItem STORAGE_KEY; setItem STORAGE_KEY (js "[]");
       setItem STORAGE_KEY (js "[]")] /\
  (List.length
     (alerts (run_to_crash
                [getItemSettled (fulfilled (Some Samples.corrupt));
                 pressDelete (js "7"); setItemSettled rejected] mounted))
   <= List.length
        (filter is_settlement
           [getItemSettled (fulfilled (Some Samples.corrupt));
            pressDelete (js "7"); setItemSettled rejected]))%nat.
Proof.
  assert (Hs : is_settlement (pressDelete (js "7")) = false) by reflexivity.
  split; [exact Hs|].
  split; [apply (proj1 (proj2 alerts_only_on_settlement) _ _ Hs)|].
  split; [vm_compute; reflexivity|].
  apply (proj1 alerts_only_on_settlement
           [getItemSettled (fulfilled (Some Samples.corrupt));
            pressDelete (js "7"); setItemSettled rejected]).
Defined.

(** X11. The add button and the input field. With a blank field the press
    changes nothing, the field keeping its white space; otherwise the
    task is put in front, the field is emptied, and a second press, whatever
    the clock reads by then, changes nothing more. *)
Theorem addTask_empties_field (now : Z) (l : list Task) (st : state) :
  tasks st = value_of_tasks l ->
  (trim (taskText st) = [] -> handle (pressAdd now) st = Some st) /\
  (trim (taskText st) <> [] ->
   exists st',
     handle (pressAdd now) st = Some st' /\
     tasks st' = value_of_tasks (TaskStore.newTask (taskText st) now :: l) /\
     taskText st' = [] /\
     forall now', handle (pressAdd now') st' = Some st').
Proof.
  intros Ht. unfold handle, addTask. split.
  - intros ->. unfold commit. rewrite Nat.eqb_refl. reflexivity.
  - intros Hne. destruct (trim (taskText st)) as [|c r] eqn:E; [congruence|].
    rewrite (updateTasks_tasks _
               (cons (TaskStore.newTask (taskText st) now)) l st
               (prepend_tasks _ l) Ht).
    rewrite commit_fresh by reflexivity.
    eexists. split; [reflexivity|]. split; [reflexivity|].
    split; [reflexivity|]. intros now'. simpl.
    unfold commit. rewrite Nat.eqb_refl. reflexivity.
Qed.

Lemma addTask_empties_field_witness :
  tasks (setTaskText (js " Buy milk") init) = value_of_tasks [] /\
  trim (taskText (setTaskText (js " Buy milk") init)) <> [] /\
  exists st',
    handle (pressAdd 1700000000000) (setTaskText (js " Buy milk") init)
    = Some st' /\
    tasks st'
    = value_of_tasks
        [TaskStore.newTask
           (taskText (setTaskText (js " Buy milk") init)) 1700000000000] /\
    taskText st' = [] /\
    forall now', handle (pressAdd now') st' = Some st'.
Proof.
  assert (H1 : tasks (setTaskText (js " Buy milk") init) = value_of_tasks [])
    by reflexivity.
  assert (H2 : trim (taskText (setTaskText (js " Buy milk") init)) <> [])
    by (vm_compute; discriminate).
  split; [exact H1|]. split; [exact H2|].
  apply (proj2 (addTask_empties_field 1700000000000 []
                  (setTaskText (js " Buy milk") init) H1) H2).
Defined.

Lemma run_any_mutation (m : TaskStore.mutation) (l : list Task)
  (st : state) :
  tasks st = value_of_tasks l ->
  exists st', run (events_of m) st = Some st' /\
              tasks st' = value_of_tasks (TaskStore.apply m l).
Proof.
  intros Ht. destruct (effective m) eqn:E.
  - destruct (run_effective m l st Ht E) as [st' [Hr [Ht' _]]].
    exists st'. auto.
  - destruct m as [s now|k|k]; try discriminate. simpl in E.
    destruct (trim s) as [|c r] eqn:Es; [|discriminate].
    exists (setTaskText s st). split; [apply run_blank, Es|].
    simpl. unfold TaskStore.addTask. rewrite Es. exact Ht.
Qed.

Lemma run_all_mutations (ms : list TaskStore.mutation) :
  forall (l : list Task) (st : state),
    tasks st = value_of_tasks l ->
    exists st', run (events_of_all ms) st = Some st' /\
                tasks st' = value_of_tasks (apply_all ms l).
Proof.
  unfold events_of_all.
  induction ms as [|m ms IH]; intros l st Ht; [exists st; auto|].
  destruct (run_any_mutation m l st Ht) as [st1 [Hr1 Ht1]].
  destruct (IH _ st1 Ht1) as [st2 [Hr2 Ht2]].
  exists st2. simpl. rewrite run_app, Hr1. auto.
Qed.

Lemma produced_apply_all (ms : list TaskStore.mutation) :
  Forall TaskStore.wf_mutation ms ->
  forall l, TaskStore.produced l -> TaskStore.produced (apply_all ms l).
Proof.
  induction 1 as [|m ms Hm Hms IH]; intros l Hl; [exact Hl|].
  apply IH. apply TaskStore.produced_step; assumption.
Qed.

Lemma value_of_tasks_inj (l1 l2 : list Task) :
  value_of_tasks l1 = value_of_tasks l2 -> l1 = l2.
Proof.
  intros H. apply (f_equal tasks_of_value) in H.
  rewrite !tasks_of_value_of_tasks in H. injection H as ->. reflexivity.
Qed.

(** X12. The text written for a task list tells the list: two lists of tasks
    whose strings are JavaScript strings are written as the same text only
    when they are equal. *)
Theorem stringify_tasks_inj (l1 l2 : list Task) :
  Forall TaskStore.wf_task l1 -> Forall TaskStore.wf_task l2 ->
  stringify_tasks l1 = stringify_tasks l2 -> l1 = l2.
Proof.
  intros H1 H2 E. apply value_of_tasks_inj.
  apply JSON_parse_stringify_tasks in H1, H2. rewrite E in H1.
  rewrite H1 in H2. congruence.
Qed.

Lemma stringify_tasks_inj_witness :
  Forall TaskStore.wf_task Samples.two_tasks /\
  Forall TaskStore.wf_task
    (TaskStore.toggleTask (js "7") Samples.two_tasks) /\
  stringify_tasks Samples.two_tasks
  = stringify_tasks (TaskStore.toggleTask (js "7") Samples.two_tasks) /\
  Samples.two_tasks = TaskStore.toggleTask (js "7") Samples.two_tasks.
Proof.
  assert (H1 : Forall TaskStore.wf_task Samples.two_tasks).
  { repeat constructor; apply wf_js. }
  assert (H2 : Forall TaskStore.wf_task
                 (TaskStore.toggleTask (js "7") Samples.two_tasks)).
  { repeat constructor; apply wf_js. }
  assert (H3 : stringify_tasks Samples.two_tasks
     = stringify_tasks (TaskStore.toggleTask (js "7") Samples.two_tasks))
    by reflexivity.
  split; [exact H1|]. split; [exact H2|]. split; [exact H3|].
  apply (stringify_tasks_inj _ _ H1 H2 H3).
Defined.

Lemma run_one (ev : event) (st : state) : run [ev] st = handle ev st.
Proof. simpl. destruct (handle ev st); reflexivity. Qed.

Lemma loadTasks_resume_text (l : list Task) (st : state) :
  JSON_parse (stringify_tasks l) = Some (value_of_tasks l) ->
  loadTasks_resume (fulfilled (Some (stringify_tasks l))) st
  = setTasks (value_of_tasks l) st.
Proof.
  intros Hp. unfold loadTasks_resume. rewrite Hp.
  destruct (stringify_tasks_truthy l) as [r ->]. reflexivity.
Qed.

(** X13. Across a restart. After any sequence of mutations the last write of
    the session is the text of the list; a component mounted afresh whose
    read fulfils with that text holds the same list again, shows no alert,
    and writes the same text back. *)
Theorem reload_restores_list (ms : list TaskStore.mutation) :
  Forall TaskStore.wf_mutation ms ->
  exists st1 st2,
    session (events_of_all ms) = Some st1 /\
    tasks st1 = value_of_tasks (apply_all ms []) /\
    last_write (calls st1) = Some (stringify_tasks (apply_all ms [])) /\
    session [getItemSettled (fulfilled (last_write (calls st1)))]
    = Some st2 /\
    tasks st2 = tasks st1 /\ alerts st2 = [] /\
    last_write (calls st2) = last_write (calls st1).
Proof.
  intros Hwf.
  destruct (run_all_mutations ms []
              (issue (setItem STORAGE_KEY (stringify_tasks []))
                 (loadTasks_begin init)) eq_refl) as [st1 [Hr Ht]].
  assert (Hs : session (events_of_all ms) = Some st1) by exact Hr.
  pose proof (run_sync (events_of_all ms)
                (issue (setItem STORAGE_KEY (stringify_tasks []))
                   (loadTasks_begin init)) st1 eq_refl Hr) as Hw.
  rewrite Ht, JSON_stringify_tasks in Hw.
  pose proof (produced_wf _ (produced_apply_all ms Hwf [] TaskStore.produced_nil))
    as Hp.
  apply JSON_parse_stringify_tasks in Hp.
  destruct (stringify_tasks_truthy (apply_all ms [])) as [r Er].
  exists st1. eexists. split; [exact Hs|]. split; [exact Ht|].
  split; [exact Hw|]. rewrite Hw. split.
  { unfold session.
    change mount
      with (Some (issue (setItem STORAGE_KEY (stringify_tasks []))
                    (loadTasks_begin init))).
    cbv beta iota. rewrite run_one. unfold handle.
    rewrite (loadTasks_resume_text _ _ Hp).
    apply (commit_setTasks (apply_all ms [])); reflexivity. }
  split; [rewrite Ht; reflexivity|]. split; [reflexivity|].
  apply last_write_snoc.
Qed.

Lemma reload_restores_list_witness :
  Forall TaskStore.wf_mutation
    [TaskStore.add Samples.odd_text 1700000000000;
     TaskStore.toggle (toString 1700000000000)] /\
  exists st1 st2,
    session (events_of_all
               [TaskStore.add Samples.odd_text 1700000000000;
                TaskStore.toggle (toString 1700000000000)]) = Some st1 /\
    session [getItemSettled (fulfilled (last_write (calls st1)))]
    = Some st2 /\
    tasks st2 = tasks st1 /\ alerts st2 = [].
Proof.
  assert (H : Forall TaskStore.wf_mutation
    [TaskStore.add Samples.odd_text 1700000000000;
     TaskStore.toggle (toString 1700000000000)]).
  { repeat constructor. }
  split; [exact H|].
  destruct (reload_restores_list _ H)
    as [st1 [st2 [H1 [_ [_ [H4 [H5 [H6 _]]]]]]]].
  exists st1, st2. auto.
Defined.

End SessionFacts.

(** ** What [JSON.parse] reads out of a JavaScript string *)

Module ParserWf.
Import JsStringFacts JsonFacts ParserFacts Sessions.

Lemma wf_value_arr (vs : list value) :
  wf_value (JArr vs) <-> Forall wf_value vs.
Proof.
  induction vs as [|v vs IH].
  - split; [constructor | intros _; exact I].
  - change (wf_value (JArr (v :: vs)))
      with (wf_value v /\ wf_value (JArr vs)).
    rewrite IH. split.
    + intros [H1 H2]. constructor; assumption.
    + intros H. inversion H; auto.
Qed.

Lemma wf_value_obj (ps : list (jsstring * value)) :
  wf_value (JObj ps) <-> Forall wf_member ps.
Proof.
  induction ps as [|p ps IH].
  - split; [constructor | intros _; exact I].
  - change (wf_value (JObj (p :: ps)))
      with (wf_member p /\ wf_value (JObj ps)).
    rewrite IH. split.
    + intros [H1 H2]. constructor; assumption.
    + intros H. inversion H; auto.
Qed.

Lemma wf_tail (c : code_unit) (s : jsstring) :
  wf_string (c :: s) -> wf_string s.
Proof. intros H. inversion H; assumption. Qed.

Lemma hex_value_bound (c : code_unit) (d : N) :
  hex_value c = Some d -> d < 16.
Proof.
  unfold hex_value, is_digit.
  destruct ((48 <=? c) && (c <=? 57)) eqn:E1.
  { apply andb_true_iff in E1. rewrite !N.leb_le in E1.
    intros H. injection H as <-. lia. }
  destruct ((97 <=? c) && (c <=? 102)) eqn:E2.
  { apply andb_true_iff in E2. rewrite !N.leb_le in E2.
    intros H. injection H as <-. lia. }
  destruct ((65 <=? c) && (c <=? 70)) eqn:E3; [|discriminate].
  apply andb_true_iff in E3. rewrite !N.leb_le in E3.
  intros H. injection H as <-. lia.
Qed.

Lemma hex4_bound (h1 h2 h3 h4 u : code_unit) :
  hex4 h1 h2 h3 h4 = Some u -> wf_unit u.
Proof.
  unfold hex4, wf_unit.
  destruct (hex_value h1) as [a|] eqn:E1; [|discriminate].
  destruct (hex_value h2) as [b|] eqn:E2; [|discriminate].
  destruct (hex_value h3) as [c|] eqn:E3; [|discriminate].
  destruct (hex_value h4) as [d|] eqn:E4; [|discriminate].
  apply hex_value_bound in E1. apply hex_value_bound in E2.
  apply hex_value_bound in E3. apply hex_value_bound in E4.
  intros H.
  assert (Hu : u = 4096 * a + 256 * b + 16 * c + d) by congruence.
  rewrite Hu. lia.
Qed.

Lemma escape_char_bound (e u : code_unit) :
  escape_char e = Some u -> wf_unit u.
Proof.
  unfold escape_char, wf_unit.
  repeat match goal with
         | |- (if ?b then _ else _) = _ -> _ => destruct b
         end;
  try discriminate; intros H; injection H as <-; lia.
Qed.

Lemma cons_unit_wf (c : code_unit) (o : option (jsstring * jsstring))
  (str rest : jsstring) :
  wf_unit c ->
  (forall str' rest', o = Some (str', rest') ->
                      wf_string str' /\ wf_string rest') ->
  cons_unit c o = Some (str, rest) -> wf_string str /\ wf_string rest.
Proof.
  intros Hc Ho. destruct o as [[str' rest']|]; simpl; [|discriminate].
  intros H. injection H as <- <-. destruct (Ho _ _ eq_refl).
  split; [constructor|]; assumption.
Qed.

Lemma parse_chars_wf_bounded (n : nat) :
  forall s str rest,
    (List.length s <= n)%nat -> wf_string s ->
    parse_chars s = Some (str, rest) ->
    wf_string str /\ wf_string rest.
Proof.
  induction n as [|n IH]; intros s str rest Hn Hs H.
  - destruct s; [discriminate|simpl in Hn; lia].
  - destruct s as [|c r]; [discriminate|]. simpl in Hn.
    inversion Hs as [|? ? Hc Hr]; subst.
    cbn [parse_chars] in H.
    destruct (c =? 34).
    { injection H as <- <-. split; [constructor | assumption]. }
    destruct (c =? 92).
    + destruct r as [|e r1]; [discriminate|].
      apply wf_tail in Hr.
      destruct (e =? 117).
      * destruct r1 as [|h1 [|h2 [|h3 [|h4 r2]]]]; try discriminate.
        destruct (hex4 h1 h2 h3 h4) as [u|] eqn:E; [|discriminate].
        apply hex4_bound in E.
        apply (cons_unit_wf _ _ _ _ E) in H; [exact H|].
        intros str' rest' H'. apply IH in H'; [exact H'|simpl in *; lia|].
        do 4 apply wf_tail in Hr. exact Hr.
      * destruct (escape_char e) as [u|] eqn:E; [|discriminate].
        apply escape_char_bound in E.
        apply (cons_unit_wf _ _ _ _ E) in H; [exact H|].
        intros str' rest' H'. apply IH in H'; [exact H'|simpl in *; lia|].
        exact Hr.
    + destruct (c <? 32); [discriminate|].
      apply (cons_unit_wf _ _ _ _ Hc) in H; [exact H|].
      intros str' rest' H'. apply IH in H'; [exact H'|lia|exact Hr].
Qed.

Lemma parse_chars_wf : wf_parser wf_string parse_chars.
Proof.
  intros s str rest. apply (parse_chars_wf_bounded (List.length s)). lia.
Qed.

Lemma skip_ws_wf (s : jsstring) : wf_string s -> wf_string (skip_ws s).
Proof.
  induction 1 as [|c s Hc Hs IH]; simpl; [constructor|].
  destruct (is_json_ws c); [exact IH | constructor; assumption].
Qed.

Lemma skip_ws_cons_wf (s r : jsstring) (c : code_unit) :
  wf_string s -> skip_ws s = c :: r -> wf_string r.
Proof.
  intros Hs E. apply skip_ws_wf in Hs. rewrite E in Hs.
  apply (wf_tail _ _ Hs).
Qed.

Lemma strip_prefix_wf (p s rest : jsstring) :
  wf_string s -> strip_prefix p s = Some rest -> wf_string rest.
Proof.
  revert s. induction p as [|a p IH]; intros s Hs; simpl.
  - intros H. injection H as <-. exact Hs.
  - destruct s as [|b s]; [discriminate|].
    destruct (a =? b); [|discriminate].
    apply IH. apply (wf_tail _ _ Hs).
Qed.

Lemma take_digits_wf (s ds rest : jsstring) :
  wf_string s -> take_digits s = (ds, rest) -> wf_string rest.
Proof.
  intros Hs. revert ds rest.
  induction Hs as [|c s Hc Hs IH]; intros ds rest; simpl.
  - intros H. injection H as _ <-. constructor.
  - destruct (is_digit c).
    + destruct (take_digits s) as [ds' rest'] eqn:E.
      intros H. injection H as _ <-. apply (IH _ _ eq_refl).
    + intros H. injection H as _ <-. constructor; assumption.
Qed.

Lemma digits1_wf (s ds rest : jsstring) :
  wf_string s -> digits1 s = Some (ds, rest) -> wf_string rest.
Proof.
  intros Hs. unfold digits1.
  destruct (take_digits s) as [[|d ds'] rest'] eqn:E; [discriminate|].
  intros H. injection H as _ <-. apply (take_digits_wf _ _ _ Hs E).
Qed.

Lemma parse_int_part_wf (s i rest : jsstring) :
  wf_string s -> parse_int_part s = Some (i, rest) -> wf_string rest.
Proof.
  intros Hs. unfold parse_int_part. destruct s as [|c r]; [discriminate|].
  apply wf_tail in Hs. destruct (c =? 48).
  - intros H. injection H as _ <-. exact Hs.
  - destruct (is_digit c); [|discriminate].
    destruct (take_digits r) as [ds rest'] eqn:E.
    intros H. injection H as _ <-. apply (take_digits_wf _ _ _ Hs E).
Qed.

Lemma parse_fraction_wf (s f rest : jsstring) :
  wf_string s -> parse_fraction s = Some (f, rest) -> wf_string rest.
Proof.
  intros Hs. unfold parse_fraction. destruct s as [|c r].
  - intros H. injection H as _ <-. exact Hs.
  - destruct (c =? 46).
    + destruct (digits1 r) as [[ds rest']|] eqn:E; [|discriminate].
      intros H. injection H as _ <-.
      apply (digits1_wf _ _ _ (wf_tail _ _ Hs) E).
    + intros H. injection H as _ <-. exact Hs.
Qed.

Lemma parse_exponent_wf (s e rest : jsstring) :
  wf_string s -> parse_exponent s = Some (e, rest) -> wf_string rest.
Proof.
  intros Hs. unfold parse_exponent. destruct s as [|c r].
  - intros H. injection H as _ <-. exact Hs.
  - pose proof (wf_tail _ _ Hs) as Hr.
    destruct ((c =? 101) || (c =? 69)).
    + destruct r as [|d r'].
      * destruct (digits1 []) as [[ds rest']|] eqn:E; [|discriminate].
        intros H. injection H as _ <-. apply (digits1_wf _ _ _ Hr E).
      * destruct ((d =? 43) || (d =? 45)).
        -- destruct (digits1 r') as [[ds rest']|] eqn:E; [|discriminate].
           intros H. injection H as _ <-.
           apply (digits1_wf _ _ _ (wf_tail _ _ Hr) E).
        -- destruct (digits1 (d :: r')) as [[ds rest']|] eqn:E;
             [|discriminate].
           intros H. injection H as _ <-. apply (digits1_wf _ _ _ Hr E).
    + intros H. injection H as _ <-. exact Hs.
Qed.

Lemma parse_number_wf (s lit rest : jsstring) :
  wf_string s -> parse_number s = Some (lit, rest) -> wf_string rest.
Proof.
  intros Hs. unfold parse_number.
  set (p := match s with
            | [] => ([], s)
            | c :: r => if c =? 45 then ([45], r) else ([], s)
            end).
  assert (Hp : wf_string (snd p)).
  { subst p. destruct s as [|c r]; [exact Hs|].
    destruct (c =? 45); [apply (wf_tail _ _ Hs) | exact Hs]. }
  destruct p as [sign s1]. simpl in Hp.
  destruct (parse_int_part s1) as [[i s2]|] eqn:Ei; [|discriminate].
  destruct (parse_fraction s2) as [[f s3]|] eqn:Ef; [|discriminate].
  destruct (parse_exponent s3) as [[e s4]|] eqn:Ee; [|discriminate].
  intros H. injection H as _ <-.
  apply (parse_exponent_wf _ _ _ (parse_fraction_wf _ _ _
           (parse_int_part_wf _ _ _ Hp Ei) Ef) Ee).
Qed.

Lemma replace_property_wf (k : jsstring) (v : value)
  (props props' : list (jsstring * value)) :
  wf_value v -> Forall wf_member props ->
  replace_property k v props = Some props' -> Forall wf_member props'.
Proof.
  intros Hv Hps. revert props'.
  induction Hps as [|[k' v'] ps [Hk' Hv'] Hps IH]; intros props'; simpl;
    [discriminate|].
  destruct (JsString.eqb k' k).
  - intros H. injection H as <-. constructor; [split|]; assumption.
  - destruct (replace_property k v ps) as [ps'|]; [|discriminate].
    intros H. injection H as <-.
    constructor; [split; assumption | apply IH; reflexivity].
Qed.

Lemma insert_index_wf (n : N) (k : jsstring) (v : value)
  (props : list (jsstring * value)) :
  wf_member (k, v) -> Forall wf_member props ->
  Forall wf_member (insert_index n k v props).
Proof.
  intros Hkv Hps.
  induction Hps as [|[k' v'] ps Hp Hps IH]; simpl;
    [constructor; [exact Hkv | constructor]|].
  destruct (array_index k') as [m|].
  - destruct (m <? n); constructor; try assumption.
    constructor; assumption.
  - constructor; [exact Hkv|]. constructor; assumption.
Qed.

Lemma define_property_wf (props : list (jsstring * value))
  (kv : jsstring * value) :
  Forall wf_member props -> wf_member kv ->
  Forall wf_member (define_property props kv).
Proof.
  intros Hps Hkv. destruct kv as [k v]. unfold define_property.
  destruct (replace_property k v props) as [props'|] eqn:E.
  - apply (replace_property_wf k v props props' (proj2 Hkv) Hps E).
  - destruct (array_index k).
    + apply insert_index_wf; assumption.
    + apply Forall_app. split; [exact Hps|]. constructor; [exact Hkv|].
      constructor.
Qed.

Lemma object_of_members_wf (ms : list (jsstring * value)) :
  Forall wf_member ms -> wf_value (object_of_members ms).
Proof.
  intros H. unfold object_of_members. apply wf_value_obj.
  assert (G : forall acc, Forall wf_member acc ->
                Forall wf_member (fold_left define_property ms acc)).
  { induction H as [|kv ms Hkv Hms IH]; intros acc Hacc; [exact Hacc|].
    simpl. apply IH. apply define_property_wf; assumption. }
  apply G. constructor.
Qed.

Lemma value_step_wf
  (elements : jsstring -> option (list value * jsstring))
  (members : jsstring -> option (list (jsstring * value) * jsstring)) :
  wf_parser (Forall wf_value) elements ->
  wf_parser (Forall wf_member) members ->
  wf_parser wf_value (value_step elements members).
Proof.
  intros He Hm s v rest Hs H. unfold value_step in H.
  destruct (skip_ws s) as [|c r] eqn:E0; [discriminate|].
  assert (Hcr : wf_string (c :: r))
    by (rewrite <- E0; apply skip_ws_wf, Hs).
  pose proof (wf_tail _ _ Hcr) as Es.
  destruct (c =? 34).
  { destruct (parse_chars r) as [[str rest']|] eqn:E; [|discriminate].
    injection H as <- <-. apply (parse_chars_wf _ _ _ Es E). }
  destruct (c =? 91).
  { destruct (skip_ws r) as [|d r'] eqn:Er; [discriminate|].
    apply (skip_ws_cons_wf _ _ _ Es) in Er. destruct (d =? 93).
    - injection H as <- <-. split; [exact I | exact Er].
    - destruct (elements r) as [[vs rest']|] eqn:E; [|discriminate].
      injection H as <- <-. destruct (He _ _ _ Es E) as [H1 H2].
      split; [apply wf_value_arr, H1 | exact H2]. }
  destruct (c =? 123).
  { destruct (skip_ws r) as [|d r'] eqn:Er; [discriminate|].
    apply (skip_ws_cons_wf _ _ _ Es) in Er. destruct (d =? 125).
    - injection H as <- <-. split; [exact I | exact Er].
    - destruct (members r) as [[ms rest']|] eqn:E; [|discriminate].
      injection H as <- <-. destruct (Hm _ _ _ Es E) as [H1 H2].
      split; [apply object_of_members_wf, H1 | exact H2]. }
  destruct (c =? 116).
  { destruct (strip_prefix (js "true") (c :: r)) as [rest'|] eqn:E;
      [|discriminate].
    injection H as <- <-. split; [exact I|].
    apply (strip_prefix_wf _ _ _ Hcr E). }
  destruct (c =? 102).
  { destruct (strip_prefix (js "false") (c :: r)) as [rest'|] eqn:E;
      [|discriminate].
    injection H as <- <-. split; [exact I|].
    apply (strip_prefix_wf _ _ _ Hcr E). }
  destruct (c =? 110).
  { destruct (strip_prefix (js "null") (c :: r)) as [rest'|] eqn:E;
      [|discriminate].
    injection H as <- <-. split; [exact I|].
    apply (strip_prefix_wf _ _ _ Hcr E). }
  destruct (parse_number (c :: r)) as [[lit rest']|] eqn:E; [|discriminate].
  injection H as <- <-. split; [exact I|].
  apply (parse_number_wf _ _ _ Hcr E).
Qed.

Lemma elements_step_wf
  (pvalue : jsstring -> option (value * jsstring))
  (elements : jsstring -> option (list value * jsstring)) :
  wf_parser wf_value pvalue -> wf_parser (Forall wf_value) elements ->
  wf_parser (Forall wf_value) (elements_step pvalue elements).
Proof.
  intros Hv He s vs rest Hs H. unfold elements_step in H.
  destruct (pvalue s) as [[v r]|] eqn:Ev; [|discriminate].
  destruct (Hv _ _ _ Hs Ev) as [Hwv Hr].
  destruct (skip_ws r) as [|c r'] eqn:Er; [discriminate|].
  apply (skip_ws_cons_wf _ _ _ Hr) in Er. destruct (c =? 44).
  - destruct (elements r') as [[vs' rest']|] eqn:E; [|discriminate].
    injection H as <- <-. destruct (He _ _ _ Er E) as [H1 H2].
    split; [constructor; assumption | exact H2].
  - destruct (c =? 93); [|discriminate]. injection H as <- <-.
    split; [constructor; [exact Hwv | constructor] | exact Er].
Qed.

Lemma members_step_wf
  (pvalue : jsstring -> option (value * jsstring))
  (members : jsstring -> option (list (jsstring * value) * jsstring)) :
  wf_parser wf_value pvalue -> wf_parser (Forall wf_member) members ->
  wf_parser (Forall wf_member) (members_step pvalue members).
Proof.
  intros Hv Hm s ms rest Hs H. unfold members_step in H.
  destruct (skip_ws s) as [|q r0] eqn:Es; [discriminate|].
  apply (skip_ws_cons_wf _ _ _ Hs) in Es.
  destruct (q =? 34); [|discriminate].
  destruct (parse_chars r0) as [[k r1]|] eqn:Ek; [|discriminate].
  destruct (parse_chars_wf _ _ _ Es Ek) as [Hk Hr1].
  destruct (skip_ws r1) as [|colon r2] eqn:E1; [discriminate|].
  apply (skip_ws_cons_wf _ _ _ Hr1) in E1.
  destruct (colon =? 58); [|discriminate].
  destruct (pvalue r2) as [[v r3]|] eqn:Ev; [|discriminate].
  destruct (Hv _ _ _ E1 Ev) as [Hwv Hr3].
  destruct (skip_ws r3) as [|c r4] eqn:E3; [discriminate|].
  apply (skip_ws_cons_wf _ _ _ Hr3) in E3. destruct (c =? 44).
  - destruct (members r4) as [[ms' rest']|] eqn:E; [|discriminate].
    injection H as <- <-. destruct (Hm _ _ _ E3 E) as [H1 H2].
    split; [constructor; [split|]; assumption | exact H2].
  - destruct (c =? 125); [|discriminate]. injection H as <- <-.
    split; [constructor; [split; assumption | constructor] | exact E3].
Qed.

Lemma parse_wf (f : nat) :
  wf_parser wf_value (parse_value f) /\
  wf_parser (Forall wf_value) (parse_elements f) /\
  wf_parser (Forall wf_member) (parse_members f).
Proof.
  induction f as [|f [IHv [IHe IHm]]].
  - split; [|split]; intros s a rest _ H; discriminate H.
  - split; [|split]; intros s a rest.
    + rewrite parse_value_S. apply value_step_wf; assumption.
    + rewrite parse_elements_S. apply elements_step_wf; assumption.
    + rewrite parse_members_S. apply members_step_wf; assumption.
Qed.

(** What [JSON.parse] reads out of a JavaScript string holds JavaScript
    strings only. *)
Lemma JSON_parse_wf (s : jsstring) (v : value) :
  wf_string s -> JSON_parse s = Some v -> wf_value v.
Proof.
  intros Hs. unfold JSON_parse.
  destruct (parse_value (2 * List.length s + 1) s) as [[v' rest]|] eqn:E;
    [|discriminate].
  destruct (skip_ws rest); [|discriminate].
  intros H. injection H as <-.
  apply (proj1 (proj1 (parse_wf _) _ _ _ Hs E)).
Qed.

Lemma wf_value_of_tasks (l : list Task) :
  wf_value (value_of_tasks l) <-> Forall TaskStore.wf_task l.
Proof.
  unfold value_of_tasks. rewrite wf_value_arr, Forall_map.
  assert (G : forall t, wf_value (value_of_task t) <-> TaskStore.wf_task t).
  { intros t. unfold TaskStore.wf_task. simpl.
    pose proof (wf_js "id"). pose proof (wf_js "text").
    pose proof (wf_js "isCompleted"). tauto. }
  rewrite !Forall_forall. split; intros H t Ht; apply G, H, Ht.
Qed.

End ParserWf.

(** ** Sessions on JavaScript strings, and the list on screen *)

Module SessionWf.
Import JsStringFacts TaskStoreFacts JsonFacts AppFacts SessionFacts ParserWf.
Import App Sessions View.

Lemma wf_toggleTask (k : jsstring) (l : list Task) :
  Forall TaskStore.wf_task l -> Forall TaskStore.wf_task (TaskStore.toggleTask k l).
Proof.
  intros H. unfold TaskStore.toggleTask. apply Forall_map.
  revert H. apply Forall_impl. intros t Ht.
  destruct (JsString.eqb (id t) k); exact Ht.
Qed.

Lemma wf_deleteTask (k : jsstring) (l : list Task) :
  Forall TaskStore.wf_task l -> Forall TaskStore.wf_task (TaskStore.deleteTask k l).
Proof.
  unfold TaskStore.deleteTask. rewrite !Forall_forall.
  intros H t Ht. apply filter_In in Ht. apply H, Ht.
Qed.

Lemma readable_stringify (l : list Task) :
  Forall TaskStore.wf_task l ->
  readable_write (STORAGE_KEY, stringify_tasks l).
Proof.
  intros H. split; [reflexivity|]. exists l.
  split; [reflexivity | apply JSON_parse_stringify_tasks, H].
Qed.

(** An event on JavaScript strings, over a list of tasks on JavaScript
    strings: no updater throws, the list stays such a list, and what is
    written, if anything, is its text. *)
Lemma handle_wf (ev : event) (st : state) (l : list Task) :
  wf_event ev -> reads_task_list ev ->
  wf_string (taskText st) ->
  tasks st = value_of_tasks l -> Forall TaskStore.wf_task l ->
  exists st' l',
    handle ev st = Some st' /\
    wf_string (taskText st') /\
    tasks st' = value_of_tasks l' /\ Forall TaskStore.wf_task l' /\
    (calls st' = calls st \/
     calls st' = calls st ++ [setItem STORAGE_KEY (stringify_tasks l')]).
Proof.
  intros Hev Hrd Htx Ht Hl.
  assert (Hupd : forall (f : value -> option value) g,
            f (value_of_tasks l) = Some (value_of_tasks (g l)) ->
            Forall TaskStore.wf_task (g l) ->
            exists st' l',
              commit st (updateTasks f st) = Some st' /\
              wf_string (taskText st') /\
              tasks st' = value_of_tasks l' /\
              Forall TaskStore.wf_task l' /\
              (calls st' = calls st \/
               calls st'
               = calls st ++ [setItem STORAGE_KEY (stringify_tasks l')])).
  { intros f g Hf Hg. rewrite (updateTasks_tasks f g l st Hf Ht).
    rewrite commit_fresh by reflexivity. eexists. exists (g l).
    split; [reflexivity|]. split; [exact Htx|]. split; [reflexivity|].
    split; [exact Hg|]. right. rewrite <- JSON_stringify_tasks. reflexivity. }
  destruct ev as [s|now|k|k|r|r]; unfold handle.
  - eexists. exists l. split; [reflexivity|]. split; [exact Hev|].
    split; [exact Ht|]. split; [exact Hl|]. left. reflexivity.
  - unfold addTask. destruct (trim (taskText st)) as [|c r].
    + rewrite commit_same by reflexivity. exists st, l. auto 6.
    + rewrite (updateTasks_tasks _
                 (cons (TaskStore.newTask (taskText st) now)) l st
                 (prepend_tasks _ l) Ht).
      rewrite commit_fresh by reflexivity. eexists.
      exists (TaskStore.newTask (taskText st) now :: l).
      split; [reflexivity|]. split; [constructor|].
      split; [reflexivity|].
      split; [constructor; [apply wf_task_newTask, Htx | exact Hl]|].
      right. rewrite <- JSON_stringify_tasks. reflexivity.
  - apply (Hupd _ (TaskStore.toggleTask k));
      [apply toggle_updater_tasks | apply wf_toggleTask, Hl].
  - apply (Hupd _ (TaskStore.deleteTask k));
      [apply delete_updater_tasks | apply wf_deleteTask, Hl].
  - destruct r as [[[|c blob]|]|]; cbn [loadTasks_resume];
      try (rewrite commit_same by reflexivity; eexists; exists l;
           split; [reflexivity|]; split; [exact Htx|]; split; [exact Ht|];
           split; [exact Hl|]; left; reflexivity).
    cbn [reads_task_list] in Hrd. cbn [wf_event] in Hev.
    destruct Hrd as [Hrd|[Hrd|[l' Hrd]]]; [discriminate| |].
    + rewrite Hrd. rewrite commit_same by reflexivity. eexists. exists l.
      split; [reflexivity|]. split; [exact Htx|]. split; [exact Ht|].
      split; [exact Hl|]. left. reflexivity.
    + pose proof (JSON_parse_wf _ _ Hev Hrd) as Hw.
      apply wf_value_of_tasks in Hw. rewrite Hrd.
      rewrite commit_fresh by reflexivity. eexists. exists l'.
      split; [reflexivity|]. split; [exact Htx|]. split; [reflexivity|].
      split; [exact Hw|]. right. rewrite <- JSON_stringify_tasks. reflexivity.
  - eexists. exists l. split; [reflexivity|].
    destruct r; (split; [exact Htx|]; split; [exact Ht|];
                 split; [exact Hl|]; left; reflexivity).
Qed.

Lemma run_readable (evs : list event) :
  Forall wf_event evs -> Forall reads_task_list evs ->
  forall (st : state) (l : list Task),
    wf_string (taskText st) ->
    tasks st = value_of_tasks l -> Forall TaskStore.wf_task l ->
    Forall readable_write (writes (calls st)) ->
    exists st', run evs st = Some st' /\
                Forall readable_write (writes (calls st')).
Proof.
  induction evs as [|ev evs IH]; intros Hevs Hrds st l Htx Ht Hl Hw.
  - exists st. auto.
  - inversion Hevs as [|? ? Hev Hevs']; subst.
    inversion Hrds as [|? ? Hrd Hrds']; subst.
    destruct (handle_wf ev st l Hev Hrd Htx Ht Hl)
      as [st1 [l1 [H1 [Htx1 [Ht1 [Hl1 Hc]]]]]].
    simpl. rewrite H1. apply (IH Hevs' Hrds' st1 l1 Htx1 Ht1 Hl1).
    destruct Hc as [-> | ->]; [exact Hw|].
    rewrite writes_app. apply Forall_app. split; [exact Hw|].
    simpl. constructor; [|constructor]. apply readable_stringify, Hl1.
Qed.

(** X14. In a session on JavaScript strings (the texts typed and the blobs
    read) whose reads bring nothing, a text that does not parse, or the text
    of a task list, no updater throws, and every write the component has
    issued is, under the one key, the text of a task list, and [JSON.parse]
    reads that list back from it: [loadTasks] never meets text of
    [saveTasks] that it cannot read. *)
Theorem writes_read_back (evs : list event) :
  Forall wf_event evs -> Forall reads_task_list evs ->
  exists st,
    session evs = Some st /\
    Forall readable_write (writes (calls st)).
Proof.
  intros Hevs Hrds.
  apply (run_readable evs Hevs Hrds mounted []);
    [constructor | reflexivity | constructor |].
  simpl. constructor; [|constructor].
  apply (readable_stringify []). constructor.
Qed.

Lemma writes_read_back_witness :
  Forall wf_event
    [getItemSettled (fulfilled (Some (stringify_tasks Samples.odd_tasks)));
     changeText Samples.odd_text; pressAdd 1700000002000] /\
  Forall reads_task_list
    [getItemSettled (fulfilled (Some (stringify_tasks Samples.odd_tasks)));
     changeText Samples.odd_text; pressAdd 1700000002000] /\
  (exists st,
     session
       [getItemSettled (fulfilled (Some (stringify_tasks Samples.odd_tasks)));
        changeText Samples.odd_text; pressAdd 1700000002000] = Some st /\
     Forall readable_write (writes (calls st))).
Proof.
  assert (H : Forall wf_event
    [getItemSettled (fulfilled (Some (stringify_tasks Samples.odd_tasks)));
     changeText Samples.odd_text; pressAdd 1700000002000]).
  { repeat constructor. }
  assert (H' : Forall reads_task_list
    [getItemSettled (fulfilled (Some (stringify_tasks Samples.odd_tasks)));
     changeText Samples.odd_text; pressAdd 1700000002000]).
  { constructor; [|constructor; [exact I|constructor; [exact I|constructor]]].
    right. right. exists Samples.odd_tasks. vm_compute. reflexivity. }
  split; [exact H|]. split; [exact H'|].
  apply (writes_read_back _ H H').
Defined.

Lemma toggleTask_middle (l1 l2 : list Task) (t : Task) :
  NoDup (ids (l1 ++ t :: l2)) ->
  TaskStore.toggleTask (id t) (l1 ++ t :: l2) = l1 ++ TaskStore.flip t :: l2.
Proof.
  intros Hd. apply NoDup_ids_middle in Hd. destruct Hd as [H1 H2].
  rewrite toggleTask_app. simpl.
  rewrite (toggleTask_absent _ l1 H1), (toggleTask_absent _ l2 H2).
  rewrite eqb_refl. reflexivity.
Qed.

Lemma deleteTask_middle (l1 l2 : list Task) (t : Task) :
  NoDup (ids (l1 ++ t :: l2)) ->
  TaskStore.deleteTask (id t) (l1 ++ t :: l2) = l1 ++ l2.
Proof.
  intros Hd. apply NoDup_ids_middle in Hd. destruct Hd as [H1 H2].
  rewrite deleteTask_app. simpl.
  rewrite (deleteTask_absent _ l1 H1), (deleteTask_absent _ l2 H2).
  rewrite eqb_refl. reflexivity.
Qed.

(** X15. The buttons of a row. While the keys on screen are pairwise distinct,
    the check box of a row changes that row alone, its mark and its style
    switching between done and not done, and the delete button removes
    that row alone; the other rows stay as and where they are. *)
Theorem row_buttons (l1 l2 : list Task) (t : Task) (st : state) :
  NoDup (map key (FlatList (l1 ++ t :: l2))) ->
  tasks st = value_of_tasks (l1 ++ t :: l2) ->
  (exists st' l',
     handle (onCheck (TaskItem t)) st = Some st' /\
     tasks st' = value_of_tasks l' /\
     FlatList l' = FlatList l1 ++ TaskItem (TaskStore.flip t) :: FlatList l2 /\
     completedStyle (TaskItem (TaskStore.flip t))
     = negb (completedStyle (TaskItem t)) /\
     label (TaskItem (TaskStore.flip t)) = label (TaskItem t) /\
     key (TaskItem (TaskStore.flip t)) = key (TaskItem t)) /\
  (exists st' l',
     handle (onDelete (TaskItem t)) st = Some st' /\
     tasks st' = value_of_tasks l' /\
     FlatList l' = FlatList l1 ++ FlatList l2).
Proof.
  intros Hd Ht.
  assert (Hd' : NoDup (ids (l1 ++ t :: l2))).
  { unfold FlatList in Hd. rewrite map_map in Hd. exact Hd. }
  split.
  - destruct (run_effective (TaskStore.toggle (id t)) _ st Ht eq_refl)
      as [st' [Hr [Ht' _]]].
    cbn [events_of] in Hr. rewrite run_one in Hr.
    exists st', (l1 ++ TaskStore.flip t :: l2).
    split; [exact Hr|]. simpl in Ht'. rewrite toggleTask_middle in Ht' by exact Hd'.
    split; [exact Ht'|]. unfold FlatList. rewrite map_app. auto.
  - destruct (run_effective (TaskStore.delete (id t)) _ st Ht eq_refl)
      as [st' [Hr [Ht' _]]].
    cbn [events_of] in Hr. rewrite run_one in Hr. exists st', (l1 ++ l2).
    split; [exact Hr|]. simpl in Ht'. rewrite deleteTask_middle in Ht' by exact Hd'.
    split; [exact Ht'|]. unfold FlatList. apply map_app.
Qed.

Lemma row_buttons_witness :
  NoDup (map key (FlatList
                    ([mkTask (js "2") (js "Walk dog") false]
                     ++ mkTask (js "1") (js "Buy milk") false :: []))) /\
  tasks (setTasks (value_of_tasks
                     ([mkTask (js "2") (js "Walk dog") false]
                      ++ mkTask (js "1") (js "Buy milk") false :: [])) init)
  = value_of_tasks ([mkTask (js "2") (js "Walk dog") false]
                    ++ mkTask (js "1") (js "Buy milk") false :: []) /\
  (exists st' l',
     handle (onDelete (TaskItem (mkTask (js "1") (js "Buy milk") false)))
       (setTasks (value_of_tasks
                    ([mkTask (js "2") (js "Walk dog") false]
                     ++ mkTask (js "1") (js "Buy milk") false :: [])) init)
     = Some st' /\
     tasks st' = value_of_tasks l' /\
     FlatList l' = FlatList [mkTask (js "2") (js "Walk dog") false]
                   ++ FlatList []).
Proof.
  assert (H1 : NoDup (map key (FlatList
                    ([mkTask (js "2") (js "Walk dog") false]
                     ++ mkTask (js "1") (js "Buy milk") false :: [])))).
  { vm_compute. repeat constructor; simpl; intuition discriminate. }
  split; [exact H1|]. split; [reflexivity|].
  apply (proj2 (row_buttons [mkTask (js "2") (js "Walk dog") false] []
                  (mkTask (js "1") (js "Buy milk") false)
                  (setTasks (value_of_tasks
                     ([mkTask (js "2") (js "Walk dog") false]
                      ++ mkTask (js "1") (js "Buy milk") false :: [])) init)
                  H1 eq_refl)).
Defined.

(** X16. A read that settles after the user has already changed the list: the
    stored list replaces the one in memory, whatever was added, toggled or
    deleted in the meantime, and is written back. *)
Theorem late_read_replaces_edits
  (ms : list TaskStore.mutation) (stored : list Task) :
  Forall TaskStore.wf_task stored ->
  exists st,
    session (events_of_all ms
             ++ [getItemSettled (fulfilled (Some (stringify_tasks stored)))])
    = Some st /\
    tasks st = value_of_tasks stored /\
    alerts st = [] /\
    last_write (calls st) = Some (stringify_tasks stored).
Proof.
  intros Hwf. apply JSON_parse_stringify_tasks in Hwf.
  destruct (run_all_mutations ms []
              (issue (setItem STORAGE_KEY (stringify_tasks []))
                 (loadTasks_begin init)) eq_refl) as [st1 [Hr Ht]].
  assert (Ha : alerts st1 = []).
  { assert (Hs : session (events_of_all ms) = Some st1) by exact Hr.
    destruct (run_alerts _ _ _ Hr) as [new [Ha [_ [_ Hl]]]].
    assert (Hn : filter is_settlement (events_of_all ms) = []).
    { unfold events_of_all. clear. induction ms as [|[s now|k|k] ms IH];
        simpl; auto. }
    rewrite Hn in Hl. destruct new; [exact Ha | simpl in Hl; lia]. }
  eexists. split.
  { unfold session.
    change mount
      with (Some (issue (setItem STORAGE_KEY (stringify_tasks []))
                    (loadTasks_begin init))).
    cbv beta iota. rewrite run_app, Hr, run_one. unfold handle.
    rewrite (loadTasks_resume_text _ _ Hwf).
    apply (commit_setTasks stored); reflexivity. }
  split; [reflexivity|]. split; [exact Ha|]. apply last_write_snoc.
Qed.

Lemma late_read_replaces_edits_witness :
  Forall TaskStore.wf_task Samples.two_tasks /\
  exists st,
    session (events_of_all [TaskStore.add (js "Call mum") 1700000005000]
             ++ [getItemSettled
                   (fulfilled (Some (stringify_tasks Samples.two_tasks)))])
    = Some st /\
    tasks st = value_of_tasks Samples.two_tasks.
Proof.
  assert (H : Forall TaskStore.wf_task Samples.two_tasks).
  { repeat constructor; apply wf_js. }
  split; [exact H|].
  destruct (late_read_replaces_edits
              [TaskStore.add (js "Call mum") 1700000005000] _ H)
    as [st [H1 [H2 _]]].
  exists st. auto.
Defined.

(** X17. A toggle or a delete of an id that no task carries leaves the list as
    it is and still issues one write, of the text of that list. *)
Theorem absent_id_still_writes (k : jsstring) (l : list Task) (st : state) :
  tasks st = value_of_tasks l -> ~ In k (ids l) ->
  (exists st', handle (pressToggle k) st = Some st' /\
               tasks st' = tasks st /\
               calls st' = calls st
                           ++ [setItem STORAGE_KEY (stringify_tasks l)]) /\
  (exists st', handle (pressDelete k) st = Some st' /\
               tasks st' = tasks st /\
               calls st' = calls st
                           ++ [setItem STORAGE_KEY (stringify_tasks l)]).
Proof.
  intros Ht Hk. split.
  - destruct (run_effective (TaskStore.toggle k) l st Ht eq_refl)
      as [st' [Hr [Ht' [Hc _]]]].
    cbn [events_of] in Hr. rewrite run_one in Hr. simpl in Ht', Hc.
    rewrite (toggleTask_absent k l Hk) in Ht', Hc.
    exists st'. rewrite Ht. auto.
  - destruct (run_effective (TaskStore.delete k) l st Ht eq_refl)
      as [st' [Hr [Ht' [Hc _]]]].
    cbn [events_of] in Hr. rewrite run_one in Hr. simpl in Ht', Hc.
    rewrite (deleteTask_absent k l Hk) in Ht', Hc.
    exists st'. rewrite Ht. auto.
Qed.

Lemma absent_id_still_writes_witness :
  tasks init = value_of_tasks [] /\ ~ In (js "7") (ids []) /\
  exists st', handle (pressDelete (js "7")) init = Some st' /\
              tasks st' = tasks init /\
              calls st' = calls init
                          ++ [setItem STORAGE_KEY (stringify_tasks [])].
Proof.
  assert (H : ~ In (js "7") (ids [])) by (intros []).
  split; [reflexivity|]. split; [exact H|].
  apply (proj2 (absent_id_still_writes (js "7") [] init eq_refl H)).
Defined.

Lemma subseq_refl {A : Type} (l : list A) : subseq l l.
Proof. induction l; constructor; assumption. Qed.

Lemma subseq_trans {A : Type} (l1 l2 l3 : list A) :
  subseq l1 l2 -> subseq l2 l3 -> subseq l1 l3.
Proof.
  intros H12 H23. revert l1 H12.
  induction H23 as [|x l2 l3 H IH|x l2 l3 H IH]; intros l1 H12.
  - exact H12.
  - constructor. apply IH, H12.
  - inversion H12; subst; constructor; apply IH; assumption.
Qed.

Lemma subseq_app_l {A : Type} (p l1 l2 : list A) :
  subseq l1 l2 -> subseq (p ++ l1) (p ++ l2).
Proof. intros H. induction p; simpl; [exact H | constructor; assumption]. Qed.

Lemma subseq_ids_deleteTask (k : jsstring) (l : list Task) :
  subseq (ids (TaskStore.deleteTask k l)) (ids l).
Proof.
  induction l as [|t l IH]; simpl; [constructor|].
  destruct (JsString.eqb (id t) k); simpl; constructor; exact IH.
Qed.

Lemma subseq_apply_all (ms : list TaskStore.mutation) :
  forall l : list Task,
    subseq (ids (apply_all ms l))
           (map TaskStore.generateId (rev (clocks ms)) ++ ids l).
Proof.
  induction ms as [|m ms IH]; intros l; [apply subseq_refl|].
  change (apply_all (m :: ms) l) with (apply_all ms (TaskStore.apply m l)).
  destruct m as [s now|k|k]; simpl.
  - unfold TaskStore.addTask. destruct (trim s) as [|c r] eqn:E.
    + apply IH.
    + simpl rev. rewrite map_app, <- app_assoc. apply IH.
  - specialize (IH (TaskStore.toggleTask k l)).
    rewrite ids_toggleTask in IH. exact IH.
  - apply (subseq_trans _ _ _ (IH _)).
    apply subseq_app_l, subseq_ids_deleteTask.
Qed.

(** X18. Newest first. After any sequence of mutations from the empty list,
    the tasks stand in the reverse of the order in which they were
    created: their ids are, in this order, among the ids generated, latest
    first. *)
Theorem newest_first (ms : list TaskStore.mutation) :
  subseq (ids (apply_all ms []))
         (map TaskStore.generateId (rev (clocks ms))).
Proof.
  pose proof (subseq_apply_all ms []) as H. rewrite app_nil_r in H.
  exact H.
Qed.

End SessionWf.
